(** * Package linter of melange: registry of checks and tree enforcement

    Shallow embedding of [pkg/build/linter.go].  The Go file defines four
    check predicates over a directory entry, a registry [Linters] that maps a
    check name to its predicate and remediation hint, and [lintPackageFs],
    which walks a filesystem tree with [fs.WalkDir] and applies the requested
    checks to every entry, returning the first failure.

    Layout: the small parts of the Go standard library the file relies on
    ([error] values and [fmt.Errorf], [regexp.MatchString] for the four
    patterns, [io/fs] entries and [fs.WalkDir]) are modelled first, each in a
    module named after its Go package; the definitions of [linter.go] follow
    with the names they have in the source; the theorems come last. *)

From stdpp Require Import gmap strings list.
From Stdlib Require Import ZArith Ascii String Lia.

Local Open Scope Z_scope.

(** ** Go [error] values

    An [error] interface value is [option error]: [None] is [nil].
    [errorString] is what [errors.New] and a [fmt.Errorf] without [%w] build;
    [wrapError] is what [fmt.Errorf] builds when its format has one [%w]: the
    formatted text together with the wrapped error that [Unwrap] returns.
    [PathError] is [*fs.PathError], the error the [os] filesystem reports.
    [fs.SkipDir] and [fs.SkipAll] are sentinel values compared by identity
    ([err == SkipDir]) inside [fs.WalkDir], so they are constructors of their
    own: an [errorString] with the same text is a different value, as in Go. *)

Inductive error : Type :=
| errorString (s : string)
| wrapError (msg : string) (err : error)
| PathError (Op Path : string) (Err : error)
| SkipDir
| SkipAll.

(** [err.Error()] *)
Fixpoint Error (e : error) : string :=
  match e with
  | errorString s => s
  | wrapError msg _ => msg
  | PathError op path err => op +:+ " " +:+ path +:+ ": " +:+ Error err
  | SkipDir => "skip this directory"
  | SkipAll => "skip everything and stop the walk"
  end.

(** [errors.Unwrap(err)] *)
Definition Unwrap (e : error) : option error :=
  match e with
  | wrapError _ err => Some err
  | PathError _ _ err => Some err
  | _ => None
  end.

(** The one-character string holding a double quote (byte 34), which the
    Go format strings write with a backslash escape. *)
Definition dquote : string := String (ascii_of_nat 34) EmptyString.

(** [strings.Contains(s, sub)] as a proposition. *)
Definition Contains (s sub : string) : Prop :=
  exists before after, s = before +:+ sub +:+ after.

(** [strings.HasPrefix(s, prefix)] and [strings.HasSuffix(s, suffix)]. *)
Definition HasPrefix (s prefix : string) : bool := String.prefix prefix s.

Fixpoint HasSuffix (s suffix : string) : bool :=
  String.eqb s suffix ||
  match s with
  | EmptyString => false
  | String _ s' => HasSuffix s' suffix
  end.

(** ** The fragment of Go regular expressions the linter uses

    The four patterns of the file use literals, concatenation, a group with
    alternation, an optional group, and the anchors [^] and [$] (without the
    [m] flag: beginning and end of the text).  [matchFrom r pos s] lists every
    way [r] can match at offset [pos] of the text, [s] being the text from
    that offset on; each way is the offset and the text after the match.
    [MatchString] is unanchored, as in Go: it reports whether the pattern
    matches at some offset. *)

Module regexp.

Inductive Regexp : Type :=
| Lit (l : string)
| Cat (r1 r2 : Regexp)
| Alt (r1 r2 : Regexp)
| Quest (r : Regexp)
| BeginText
| EndText.

(** [stripPrefix l s] is the rest of [s] after its prefix [l], if [l] is one. *)
Fixpoint stripPrefix (l s : string) : option string :=
  match l with
  | EmptyString => Some s
  | String a l' =>
      match s with
      | EmptyString => None
      | String b s' => if Ascii.eqb a b then stripPrefix l' s' else None
      end
  end.

Fixpoint matchFrom (r : Regexp) (pos : nat) (s : string) : list (nat * string) :=
  match r with
  | Lit l =>
      match stripPrefix l s with
      | Some rest => [((pos + String.length l)%nat, rest)]
      | None => []
      end
  | Cat r1 r2 =>
      flat_map (fun m => matchFrom r2 (fst m) (snd m)) (matchFrom r1 pos s)
  | Alt r1 r2 => matchFrom r1 pos s ++ matchFrom r2 pos s
  | Quest r1 => matchFrom r1 pos s ++ [(pos, s)]
  | BeginText => if Nat.eqb pos 0 then [(pos, s)] else []
  | EndText => match s with EmptyString => [(pos, s)] | String _ _ => [] end
  end.

Definition matchesAt (r : Regexp) (pos : nat) (s : string) : bool :=
  match matchFrom r pos s with
  | [] => false
  | _ :: _ => true
  end.

Fixpoint searchFrom (r : Regexp) (pos : nat) (s : string) : bool :=
  matchesAt r pos s ||
  match s with
  | EmptyString => false
  | String _ s' => searchFrom r (S pos) s'
  end.

(** [re.MatchString(s)] *)
Definition MatchString (r : Regexp) (s : string) : bool := searchFrom r 0 s.

End regexp.

(** ** [io/fs]: file modes, directory entries, trees and [WalkDir] *)

Module fs.

(** [fs.FileMode] is a [uint32]; the mode bits are counted from the top:
    [ModeDir = 1 << 31], and setuid and setgid are the ninth and tenth. *)
Definition FileMode : Type := Z.
Definition ModeDir : FileMode := Z.shiftl 1 (32 - 1 - 0).
Definition ModeSetuid : FileMode := Z.shiftl 1 (32 - 1 - 8).
Definition ModeSetgid : FileMode := Z.shiftl 1 (32 - 1 - 9).

(** [fs.FileInfo]: only [Mode()] is read by the linter. *)
Record FileInfo : Type := { Mode : FileMode }.

(** [fs.DirEntry]: [Info()] returns the metadata or an error. *)
Record DirEntry : Type := {
  Name : string;
  IsDir : bool;
  Info : FileInfo + error
}.

(** A filesystem tree as [WalkDir] observes it.  A node carries its entry and
    what [ReadDir] returns for it when it is a directory: the entries read, in
    the order [ReadDir] lists them (sorted by file name), and the error, if
    any (the entries are then the ones read before the error). *)
Unset Elimination Schemes.
Inductive Node : Type :=
| MkNode (d : DirEntry) (dirs : list Node) (rderr : option error).
Set Elimination Schemes.

Definition entry (n : Node) : DirEntry :=
  match n with MkNode d _ _ => d end.

(** [fs.FS] seen from its root: [Stat] of the root fails, or gives the root
    entry. *)
Inductive FS : Type :=
| StatError (err : error)
| Root (n : Node).

(** [path.Join(name, d1.Name())] for the names [WalkDir] builds: the root is
    ["."], and an entry name is a single path element. *)
Definition Join (name elem : string) : string :=
  if String.eqb name "." then elem else name +:+ "/" +:+ elem.

(** [fs.WalkDirFunc].  A Go callback is a closure: [St] is the state it
    captures and may update, threaded through the walk. *)
Definition WalkDirFunc (St : Type) : Type :=
  string -> option DirEntry -> option error -> St -> St * option error.

Section WalkDir.
Context {St : Type}.
Variable fn : WalkDirFunc St.

(** [walkDir(fsys, name, d, walkDirFn)]: the callback is called on the entry;
    a directory is then read, a [ReadDir] error is reported by a second call
    for the same path, and the entries read are walked in order. *)
Fixpoint walkDir (name : string) (n : Node) (s : St) {struct n} : St * option error :=
  match n with
  | MkNode d dirs rderr =>
      let '(s1, err) := fn name (Some d) None s in
      match err with
      | Some SkipDir => (s1, if IsDir d then None else Some SkipDir)
      | Some e => (s1, Some e)
      | None =>
          if negb (IsDir d) then (s1, None) else
          let '(s2, err2) :=
            match rderr with
            | Some re => fn name (Some d) (Some re) s1
            | None => (s1, None)
            end in
          match err2 with
          | Some SkipDir => (s2, None)
          | Some e => (s2, Some e)
          | None =>
              (fix walkDirs (l : list Node) (s : St) {struct l} : St * option error :=
                 match l with
                 | [] => (s, None)
                 | d1 :: l' =>
                     let '(s', err1) := walkDir (Join name (Name (entry d1))) d1 s in
                     match err1 with
                     | Some SkipDir => (s', None)
                     | Some e => (s', Some e)
                     | None => walkDirs l' s'
                     end
                 end) dirs s2
          end
      end
  end.

(** [fs.WalkDir(fsys, root, fn)] *)
Definition WalkDir (fsys : FS) (root : string) (s : St) : St * option error :=
  let '(s', err) :=
    match fsys with
    | StatError e => fn root None (Some e) s
    | Root n => walkDir root n s
    end in
  match err with
  | Some SkipDir | Some SkipAll => (s', None)
  | _ => (s', err)
  end.

End WalkDir.

(** One call of the callback: the path, the entry and the error [WalkDir]
    passes. *)
Definition Visit : Type := string * option DirEntry * option error.

(** The calls [WalkDir] makes, in order, as long as the callback keeps
    returning [nil]. *)
Fixpoint visitsFrom (name : string) (n : Node) {struct n} : list Visit :=
  match n with
  | MkNode d dirs rderr =>
      (name, Some d, None) ::
      (if IsDir d then
         match rderr with
         | Some re => [(name, Some d, Some re)]
         | None => []
         end ++
         flat_map (fun d1 => visitsFrom (Join name (Name (entry d1))) d1) dirs
       else [])
  end.

Definition visits (fsys : FS) (root : string) : list Visit :=
  match fsys with
  | StatError e => [(root, None, Some e)]
  | Root n => visitsFrom root n
  end.

(** Calling the callback on a list of visits until it returns an error. *)
Fixpoint callUntilError {St : Type} (fn : WalkDirFunc St) (vs : list Visit) (s : St)
  : St * option error :=
  match vs with
  | [] => (s, None)
  | (name, d, err) :: vs' =>
      let '(s', r) := fn name d err s in
      match r with
      | Some e => (s', Some e)
      | None => callUntilError fn vs' s'
      end
  end.

End fs.

(** ** [pkg/build/linter.go] *)

(** [config.Configuration] and [config.Checks] are only carried around by
    the context as pointers; nothing in this file reads them. *)
Inductive Configuration : Type := ConfigurationAt (ptr : nat).
Inductive Checks : Type := ChecksAt (ptr : nat).

Record LinterContext : Type := {
  pkgname : string;
  cfg : option Configuration;
  chk : option Checks
}.

Definition LinterFunc : Type :=
  LinterContext -> string -> fs.DirEntry -> option error.

(** The Go struct names its first field [LinterFunc], like the type; the
    field is [linterFunc] here. *)
Record Linter : Type := {
  linterFunc : LinterFunc;
  Explain : string
}.

Import regexp.

(** [^usr/local/] *)
Definition isUsrLocalRegex : Regexp := Cat BeginText (Lit "usr/local/").
(** [^var/empty/] *)
Definition isVarEmptyRegex : Regexp := Cat BeginText (Lit "var/empty/").
(** [^(var/)?(tmp|run)/] *)
Definition isTempDirRegex : Regexp :=
  Cat BeginText (Cat (Quest (Lit "var/")) (Cat (Alt (Lit "tmp") (Lit "run")) (Lit "/"))).
(** [-compat$] *)
Definition isCompatPackage : Regexp := Cat (Lit "-compat") EndText.

Definition usrLocalLinter : LinterFunc := fun lctx path _ =>
  if MatchString isCompatPackage (pkgname lctx) then None
  else if MatchString isUsrLocalRegex path then
    Some (errorString "/usr/local path found in non-compat package")
  else None.

Definition varEmptyLinter : LinterFunc := fun lctx path _ =>
  if MatchString isVarEmptyRegex path then
    Some (errorString "Package writes to /var/empty")
  else None.

Definition tempDirLinter : LinterFunc := fun lctx path _ =>
  if MatchString isTempDirRegex path then
    Some (errorString "Package writes to a temp dir")
  else None.

Definition isSetUidOrGidLinter : LinterFunc := fun lctx path d =>
  match fs.Info d with
  | inr err => Some err
  | inl info =>
      let mode := fs.Mode info in
      if negb (Z.land mode fs.ModeSetuid =? 0) then
        Some (errorString "File is setuid")
      else if negb (Z.land mode fs.ModeSetgid =? 0) then
        Some (errorString "File is setgid")
      else None
  end.

Definition Linters : gmap string Linter :=
  list_to_map [
    ("setuidgid", {| linterFunc := isSetUidOrGidLinter;
                     Explain := "Unset the setuid/setgid bit on the relevant files, or remove this linter" |});
    ("tempdir", {| linterFunc := tempDirLinter;
                   Explain := "Remove any offending files in temporary dirs in the pipeline" |});
    ("usrlocal", {| linterFunc := usrLocalLinter;
                    Explain := "This package should be a -compat package" |});
    ("varempty", {| linterFunc := varEmptyLinter;
                    Explain := "Remove any offending files in /var/empty in the pipeline" |})
  ].

(** The two errors the loop over the linters builds with [fmt.Errorf]. *)
Definition unknownLinterError (linterName : string) : error :=
  errorString ("Linter " +:+ linterName +:+ " is unknown").

Definition linterFailedError (linterName path : string) (err : error) (explain : string) : error :=
  wrapError
    ("Linter " +:+ linterName +:+ " failed at path " +:+ dquote +:+ path +:+ dquote
       +:+ ": " +:+ Error err +:+ "; suggest: " +:+ explain)
    err.

Definition traversalError (path : string) (err : error) : error :=
  wrapError ("Error traversing tree at " +:+ path +:+ ": " +:+ Error err) err.

(** The [for _, linterName := range linters] loop of the callback, on an
    entry [d]. *)
Fixpoint rangeLinters (lctx : LinterContext) (path : string) (d : fs.DirEntry)
  (linters : list string) : option error :=
  match linters with
  | [] => None
  | linterName :: rest =>
      match Linters !! linterName with
      | None => Some (unknownLinterError linterName)
      | Some linter =>
          match linterFunc linter lctx path d with
          | Some err => Some (linterFailedError linterName path err (Explain linter))
          | None => rangeLinters lctx path d rest
          end
      end
  end.

(** The closure [walkCb] of [lintPackageFs].  With a non-nil [err] it returns
    before touching [d], which [WalkDir] may pass as [nil] then; with a nil
    [err], [WalkDir] always passes an entry. *)
Definition walkCb (lctx : LinterContext) (linters : list string)
  (path : string) (d : option fs.DirEntry) (err : option error) : option error :=
  match err with
  | Some e => Some (traversalError path e)
  | None =>
      match d with
      | Some d => rangeLinters lctx path d linters
      | None => None
      end
  end.

Definition lintPackageFs (lctx : LinterContext) (fsys : fs.FS) (linters : list string)
  : option error :=
  snd (fs.WalkDir (fun path d err (st : unit) => (st, walkCb lctx linters path d err))
         fsys "." tt).

(** *** The run with its predicate calls recorded

    The predicates are pure, so which of them a run has called does not show
    in the value [lintPackageFs] returns.  To state what was run, and in which
    order, the same loop and the same callback are written once more with a
    log of the calls [linter.LinterFunc(lctx, path, d)] they make: the path
    and the name of the linter, appended when the call is made. *)

Definition Call : Type := string * string.

Fixpoint rangeLintersTraced (lctx : LinterContext) (path : string) (d : fs.DirEntry)
  (linters : list string) (log : list Call) : list Call * option error :=
  match linters with
  | [] => (log, None)
  | linterName :: rest =>
      match Linters !! linterName with
      | None => (log, Some (unknownLinterError linterName))
      | Some linter =>
          let log' := log ++ [(path, linterName)] in
          match linterFunc linter lctx path d with
          | Some err => (log', Some (linterFailedError linterName path err (Explain linter)))
          | None => rangeLintersTraced lctx path d rest log'
          end
      end
  end.

Definition walkCbTraced (lctx : LinterContext) (linters : list string)
  : fs.WalkDirFunc (list Call) :=
  fun path d err log =>
    match err with
    | Some e => (log, Some (traversalError path e))
    | None =>
        match d with
        | Some d => rangeLintersTraced lctx path d linters log
        | None => (log, None)
        end
    end.

Definition lintPackageFsTraced (lctx : LinterContext) (fsys : fs.FS) (linters : list string)
  : list Call * option error :=
  fs.WalkDir (walkCbTraced lctx linters) fsys "." [].

(** *** Vocabulary of the statements *)

(** The callback returns [nil] on a visit: no traversal error is delivered,
    and every requested linter is registered and accepts the entry. *)
Definition visitPasses (lctx : LinterContext) (linters : list string) (v : fs.Visit) : Prop :=
  walkCb lctx linters (fst (fst v)) (snd (fst v)) (snd v) = None.

(** A callback that never returns one of the two sentinels of [WalkDir]. *)
Definition neverSkips {St : Type} (fn : fs.WalkDirFunc St) : Prop :=
  forall name d err s,
    snd (fn name d err s) <> Some SkipDir /\ snd (fn name d err s) <> Some SkipAll.

(** The default set of checks. *)
Definition defaultLinters : list string := ["setuidgid"; "tempdir"; "usrlocal"; "varempty"].

(** A tree that holds its root directory only; [WalkDir] builds the root
    entry from the result of [Stat], so its [Info()] cannot fail. *)
Definition emptyTree (info : fs.FileInfo) : fs.FS :=
  fs.Root (fs.MkNode {| fs.Name := "."; fs.IsDir := true; fs.Info := inl info |} [] None).

(** Entries and trees for the examples: a regular file, and a directory with
    the entries and the error its [ReadDir] returns. *)
Definition fileEntry (name : string) (mode : fs.FileMode) : fs.DirEntry :=
  {| fs.Name := name; fs.IsDir := false; fs.Info := inl {| fs.Mode := mode |} |}.

Definition dirEntry (name : string) (mode : fs.FileMode) : fs.DirEntry :=
  {| fs.Name := name; fs.IsDir := true;
     fs.Info := inl {| fs.Mode := Z.lor fs.ModeDir mode |} |}.

Definition fileNode (name : string) (mode : fs.FileMode) : fs.Node :=
  fs.MkNode (fileEntry name mode) [] None.

Definition dirNode (name : string) (mode : fs.FileMode) (dirs : list fs.Node)
  (rderr : option error) : fs.Node :=
  fs.MkNode (dirEntry name mode) dirs rderr.

Definition pkg (name : string) : LinterContext :=
  {| pkgname := name; cfg := None; chk := None |}.

(** The calls a visit that passes has made: every requested linter, in the
    order of the list, on the entry of the visit. *)
Definition callsOnVisit (linters : list string) (v : fs.Visit) : list Call :=
  match v with
  | (path, Some _, None) => map (pair path) linters
  | _ => []
  end.

(** The first failure of a run is the linter [name] on the entry [d] at
    [path], with the error [cause]: the callback returned [nil] on every
    earlier visit, and on this one every linter listed before [name] passed. *)
Definition firstFailureAt (lctx : LinterContext) (fsys : fs.FS) (linters : list string)
  (path : string) (d : fs.DirEntry) (name : string) (linter : Linter) (cause : error) : Prop :=
  exists pre post lpre lpost,
    fs.visits fsys "." = pre ++ (path, Some d, None) :: post /\
    Forall (visitPasses lctx linters) pre /\
    linters = lpre ++ name :: lpost /\
    rangeLinters lctx path d lpre = None /\
    Linters !! name = Some linter /\
    linterFunc linter lctx path d = Some cause.

(** Permission bits [rwxr-xr-x] and [rw-r--r--]. *)
Definition perm755 : fs.FileMode := 493.
Definition perm644 : fs.FileMode := 420.

(** The error of a read that the operating system refuses. *)
Definition permissionDenied (op path : string) : error :=
  PathError op path (errorString "permission denied").

(** A tree with a violation under tmp/ and another one under usr/local/:
    the files tmp/a and usr/local/x. *)
Definition twoViolations : fs.FS :=
  fs.Root (dirNode "." perm755 [
    dirNode "tmp" perm755 [fileNode "a" perm644] None;
    dirNode "usr" perm755 [dirNode "local" perm755 [fileNode "x" perm644] None] None
  ] None).

(** A tree whose file etc/shadow has metadata that cannot be read. *)
Definition unreadableMetadata : fs.FS :=
  fs.Root (dirNode "." perm755 [
    dirNode "etc" perm755 [
      fs.MkNode {| fs.Name := "shadow"; fs.IsDir := false;
                   fs.Info := inr (permissionDenied "lstat" "etc/shadow") |} [] None
    ] None
  ] None).

(** A tree whose directory priv cannot be listed. *)
Definition unreadableDir : fs.FS :=
  fs.Root (dirNode "." perm755 [
    dirNode "priv" perm755 [] (Some (permissionDenied "open" "priv"))
  ] None).

(** A tree whose root directory, of the given mode, cannot be listed. *)
Definition unreadableRoot (mode : fs.FileMode) : fs.FS :=
  fs.Root (dirNode "." mode [] (Some (permissionDenied "open" "."))).

(** Whether a path has a slash, that is more than one element. *)
Fixpoint containsSlash (s : string) : bool :=
  match s with
  | EmptyString => false
  | String c s' => Ascii.eqb c "/" || containsSlash s'
  end.

(** A tree that no linter rejects: the file usr/bin/tool. *)
Definition cleanTree : fs.FS :=
  fs.Root (dirNode "." perm755 [
    dirNode "usr" perm755 [dirNode "bin" perm755 [fileNode "tool" perm755] None] None
  ] None).


(** * Properties *)

(** ** Strings *)

Section StringFacts.

Lemma append_nil_l (b : string) : "" +:+ b = b.
Proof. reflexivity. Qed.

Lemma append_cons (x : ascii) (a b : string) : String x a +:+ b = String x (a +:+ b).
Proof. reflexivity. Qed.

Lemma append_cons_ex (a b : ascii) (p s : string) :
  (exists rest, String b s = String a p +:+ rest) <-> a = b /\ exists rest, s = p +:+ rest.
Proof.
  split.
  - intros [rest H]. rewrite append_cons in H. inversion H. split; [reflexivity | now exists rest].
  - intros [-> [rest ->]]. now exists rest.
Qed.

Lemma append_assoc (a b c : string) : (a +:+ b) +:+ c = a +:+ (b +:+ c).
Proof.
  induction a as [|x a IH]; [reflexivity |].
  now rewrite !append_cons, IH.
Qed.

Lemma append_empty_r (a : string) : a +:+ "" = a.
Proof.
  induction a as [|x a IH]; [reflexivity |].
  now rewrite append_cons, IH.
Qed.

Lemma length_append (a b : string) :
  String.length (a +:+ b) = (String.length a + String.length b)%nat.
Proof.
  induction a as [|x a IH]; [reflexivity |].
  rewrite append_cons. simpl. now rewrite IH.
Qed.

Lemma Contains_intro (before sub after : string) :
  Contains (before +:+ sub +:+ after) sub.
Proof. now exists before, after. Qed.

Lemma HasPrefix_spec (s prefix : string) :
  HasPrefix s prefix = true <-> exists rest, s = prefix +:+ rest.
Proof.
  unfold HasPrefix. revert s.
  induction prefix as [|a p IH]; intros s.
  - split; [intros _; now exists s | intros _; now destruct s].
  - destruct s as [|b s]; simpl.
    + split; [discriminate | intros [rest H]; discriminate].
    + rewrite append_cons_ex. destruct (ascii_dec a b) as [->|Hne].
      * rewrite IH. split; [intros H; now split | now intros [_ H]].
      * split; [discriminate | now intros [H _]].
Qed.

Lemma HasSuffix_spec (s suffix : string) :
  HasSuffix s suffix = true <-> exists front, s = front +:+ suffix.
Proof.
  induction s as [|a s IH].
  - change (HasSuffix "" suffix) with (String.eqb "" suffix || false).
    rewrite orb_false_r, String.eqb_eq. split.
    + intros <-. now exists ""%string.
    + intros [[|b front] H]; [assumption | discriminate].
  - change (HasSuffix (String a s) suffix)
      with (String.eqb (String a s) suffix || HasSuffix s suffix).
    rewrite orb_true_iff, String.eqb_eq, IH. split.
    + intros [<- | [front ->]]; [now exists ""%string | now exists (String a front)].
    + intros [[|b front] H]; [now left | right].
      rewrite append_cons in H. inversion H; subst. now exists front.
Qed.

End StringFacts.

(** ** The matcher on the four patterns *)

Section RegexpFacts.

Lemma stripPrefix_spec (l s rest : string) :
  stripPrefix l s = Some rest <-> s = l +:+ rest.
Proof.
  revert s. induction l as [|a l IH]; intros s; simpl.
  - split; [now intros [= ->] | now intros ->].
  - destruct s as [|b s]; [split; discriminate |].
    destruct (Ascii.eqb_spec a b) as [->|Hne].
    + rewrite IH, append_cons. split; [now intros -> | now intros [= ->]].
    + rewrite append_cons. split; [discriminate | congruence].
Qed.

Lemma stripPrefix_HasPrefix (l s : string) :
  HasPrefix s l = match stripPrefix l s with Some _ => true | None => false end.
Proof.
  apply eq_true_iff_eq. rewrite HasPrefix_spec.
  destruct (stripPrefix l s) as [rest|] eqn:E.
  - apply stripPrefix_spec in E. split; [reflexivity | intros _; now exists rest].
  - split; [|discriminate]. intros [rest H]. apply stripPrefix_spec in H. congruence.
Qed.

Lemma matchesAt_Cat (r1 r2 : Regexp) (pos : nat) (s : string) :
  matchesAt (Cat r1 r2) pos s
  = existsb (fun m => matchesAt r2 (fst m) (snd m)) (matchFrom r1 pos s).
Proof.
  unfold matchesAt. simpl.
  induction (matchFrom r1 pos s) as [|m ms IH]; simpl; [reflexivity |].
  destruct (matchFrom r2 (fst m) (snd m)); simpl; [exact IH | reflexivity].
Qed.

Lemma matchesAt_Lit (l : string) (pos : nat) (s : string) :
  matchesAt (Lit l) pos s = HasPrefix s l.
Proof.
  rewrite stripPrefix_HasPrefix. unfold matchesAt. simpl.
  now destruct (stripPrefix l s).
Qed.

(** A pattern that starts with [^] matches at the start of the text only. *)
Lemma searchFrom_BeginText_later (r : Regexp) (pos : nat) (s : string) :
  searchFrom (Cat BeginText r) (S pos) s = false.
Proof.
  revert pos. induction s as [|a s IH]; intros pos; simpl.
  - reflexivity.
  - now rewrite IH.
Qed.

Lemma MatchString_BeginText (r : Regexp) (s : string) :
  MatchString (Cat BeginText r) s = matchesAt r 0 s.
Proof.
  unfold MatchString.
  assert (H : matchesAt (Cat BeginText r) 0 s = matchesAt r 0 s).
  { unfold matchesAt. simpl. now rewrite app_nil_r. }
  destruct s as [|a s]; simpl searchFrom.
  - now rewrite H, orb_false_r.
  - now rewrite H, searchFrom_BeginText_later, orb_false_r.
Qed.

Lemma MatchString_anchored_literal (l s : string) :
  MatchString (Cat BeginText (Lit l)) s = HasPrefix s l.
Proof. now rewrite MatchString_BeginText, matchesAt_Lit. Qed.

(** A literal followed by [$] matches where the rest of the text is the
    literal. *)
Lemma matchesAt_literal_EndText (l : string) (pos : nat) (s : string) :
  matchesAt (Cat (Lit l) EndText) pos s = String.eqb s l.
Proof.
  rewrite matchesAt_Cat. simpl.
  destruct (stripPrefix l s) as [rest|] eqn:E; simpl.
  - apply stripPrefix_spec in E. subst s. unfold matchesAt. simpl.
    destruct rest as [|a rest]; simpl.
    + now rewrite append_empty_r, String.eqb_refl.
    + symmetry. apply String.eqb_neq. intros H.
      assert (L : String.length (l +:+ String a rest) = String.length l) by now rewrite H.
      rewrite length_append in L. simpl in L. lia.
  - symmetry. apply String.eqb_neq. intros ->.
    assert (H : stripPrefix l l = Some ""%string)
      by (apply stripPrefix_spec; now rewrite append_empty_r).
    congruence.
Qed.

Lemma searchFrom_literal_EndText (l : string) (pos : nat) (s : string) :
  searchFrom (Cat (Lit l) EndText) pos s = HasSuffix s l.
Proof.
  revert pos. induction s as [|a s IH]; intros pos.
  - change (searchFrom (Cat (Lit l) EndText) pos "")
      with (matchesAt (Cat (Lit l) EndText) pos "" || false).
    now rewrite matchesAt_literal_EndText.
  - change (searchFrom (Cat (Lit l) EndText) pos (String a s))
      with (matchesAt (Cat (Lit l) EndText) pos (String a s)
            || searchFrom (Cat (Lit l) EndText) (S pos) s).
    now rewrite matchesAt_literal_EndText, IH.
Qed.

Lemma isUsrLocalRegex_spec (path : string) :
  MatchString isUsrLocalRegex path = HasPrefix path "usr/local/".
Proof. apply MatchString_anchored_literal. Qed.

Lemma isVarEmptyRegex_spec (path : string) :
  MatchString isVarEmptyRegex path = HasPrefix path "var/empty/".
Proof. apply MatchString_anchored_literal. Qed.

Lemma isCompatPackage_spec (name : string) :
  MatchString isCompatPackage name = HasSuffix name "-compat".
Proof. apply searchFrom_literal_EndText. Qed.

End RegexpFacts.

Section TempDirPattern.

Lemma matchesAt_Lit_then (l : string) (r : Regexp) (pos : nat) (s : string) :
  matchesAt (Cat (Lit l) r) pos s
  = match stripPrefix l s with
    | Some rest => matchesAt r (pos + String.length l) rest
    | None => false
    end.
Proof.
  rewrite matchesAt_Cat. simpl.
  destruct (stripPrefix l s); simpl; [apply orb_false_r | reflexivity].
Qed.

Lemma matchesAt_Alt_then (r1 r2 r : Regexp) (pos : nat) (s : string) :
  matchesAt (Cat (Alt r1 r2) r) pos s
  = matchesAt (Cat r1 r) pos s || matchesAt (Cat r2 r) pos s.
Proof. rewrite !matchesAt_Cat. simpl. apply existsb_app. Qed.

Lemma matchesAt_Quest_then (r1 r : Regexp) (pos : nat) (s : string) :
  matchesAt (Cat (Quest r1) r) pos s
  = matchesAt (Cat r1 r) pos s || matchesAt r pos s.
Proof.
  rewrite !matchesAt_Cat. simpl. rewrite existsb_app. simpl.
  now rewrite orb_false_r.
Qed.

Lemma stripPrefix_then_HasPrefix (l1 l2 s : string) :
  match stripPrefix l1 s with
  | Some rest => HasPrefix rest l2
  | None => false
  end = HasPrefix s (l1 +:+ l2).
Proof.
  apply eq_true_iff_eq. rewrite HasPrefix_spec.
  destruct (stripPrefix l1 s) as [rest|] eqn:E.
  - apply stripPrefix_spec in E. subst s. rewrite HasPrefix_spec. split.
    + intros [t ->]. exists t. now rewrite append_assoc.
    + intros [t H]. rewrite append_assoc in H.
      apply (inj (String.append l1)) in H. now exists t.
  - split; [discriminate |]. intros [t H]. rewrite append_assoc in H.
    apply stripPrefix_spec in H. congruence.
Qed.

Lemma matchesAt_Lit_Lit (l1 l2 : string) (pos : nat) (s : string) :
  matchesAt (Cat (Lit l1) (Lit l2)) pos s = HasPrefix s (l1 +:+ l2).
Proof.
  rewrite matchesAt_Lit_then, <- stripPrefix_then_HasPrefix.
  destruct (stripPrefix l1 s); [apply matchesAt_Lit | reflexivity].
Qed.

Lemma isTempDirRegex_spec (path : string) :
  MatchString isTempDirRegex path
  = HasPrefix path "tmp/" || HasPrefix path "run/"
    || HasPrefix path "var/tmp/" || HasPrefix path "var/run/".
Proof.
  unfold isTempDirRegex.
  rewrite MatchString_BeginText, matchesAt_Quest_then, matchesAt_Lit_then.
  assert (B : forall pos t,
             matchesAt (Cat (Alt (Lit "tmp") (Lit "run")) (Lit "/")) pos t
             = HasPrefix t "tmp/" || HasPrefix t "run/").
  { intros pos t. now rewrite matchesAt_Alt_then, !matchesAt_Lit_Lit. }
  rewrite B.
  replace (match stripPrefix "var/" path with
           | Some rest =>
               matchesAt (Cat (Alt (Lit "tmp") (Lit "run")) (Lit "/"))
                 (0 + String.length "var/") rest
           | None => false
           end)
    with (HasPrefix path "var/tmp/" || HasPrefix path "var/run/").
  - destruct (HasPrefix path "tmp/"), (HasPrefix path "run/"),
      (HasPrefix path "var/tmp/"), (HasPrefix path "var/run/"); reflexivity.
  - change "var/tmp/"%string with ("var/" +:+ "tmp/").
    change "var/run/"%string with ("var/" +:+ "run/").
    rewrite <- !stripPrefix_then_HasPrefix.
    destruct (stripPrefix "var/" path); [now rewrite B | reflexivity].
Qed.

End TempDirPattern.

(** ** The walk *)

Section Walk.

(** Induction on a tree, with the hypothesis on every entry of the
    directory. *)
Lemma Node_ind (P : fs.Node -> Prop) :
  (forall d dirs rderr, Forall P dirs -> P (fs.MkNode d dirs rderr)) ->
  forall n, P n.
Proof.
  intros step. fix IH 1. intros [d dirs rderr]. apply step.
  induction dirs as [|d1 dirs IHdirs]; constructor; [apply IH | exact IHdirs].
Qed.

Context {St : Type}.
Variable fn : fs.WalkDirFunc St.
Hypothesis fn_never_skips : neverSkips fn.

Lemma callUntilError_app (vs1 vs2 : list fs.Visit) (s : St) :
  fs.callUntilError fn (vs1 ++ vs2) s
  = match fs.callUntilError fn vs1 s with
    | (s', Some e) => (s', Some e)
    | (s', None) => fs.callUntilError fn vs2 s'
    end.
Proof.
  revert s. induction vs1 as [|[[name d] err] vs1 IH]; intros s; simpl.
  - reflexivity.
  - destruct (fn name d err s) as [s' [e|]]; [reflexivity | apply IH].
Qed.

Lemma callUntilError_never_skips (vs : list fs.Visit) (s : St) :
  snd (fs.callUntilError fn vs s) <> Some SkipDir /\
  snd (fs.callUntilError fn vs s) <> Some SkipAll.
Proof.
  revert s. induction vs as [|[[name d] err] vs IH]; intros s; simpl.
  - split; discriminate.
  - pose proof (fn_never_skips name d err s) as H.
    destruct (fn name d err s) as [s' [e|]]; [exact H | apply IH].
Qed.

(** With a callback that never skips, [walkDir] is the callback called on the
    visits of the subtree, in order, until the first error. *)
Lemma walkDir_callUntilError (n : fs.Node) :
  forall name s, fs.walkDir fn name n s = fs.callUntilError fn (fs.visitsFrom name n) s.
Proof.
  induction n as [d dirs rderr IHdirs] using Node_ind. intros name s.
  simpl fs.walkDir. simpl fs.visitsFrom. simpl fs.callUntilError.
  pose proof (fn_never_skips name (Some d) None s) as [Hdir _].
  destruct (fn name (Some d) None s) as [s1 [e|]]; simpl in Hdir.
  { destruct e; try reflexivity. contradiction. }
  destruct (fs.IsDir d); simpl; [|reflexivity].
  assert (Hdirs : forall s2,
    (fix walkDirs (l : list fs.Node) (s0 : St) {struct l} : St * option error :=
       match l with
       | [] => (s0, None)
       | d1 :: l' =>
           let '(s', err1) := fs.walkDir fn (fs.Join name (fs.Name (fs.entry d1))) d1 s0 in
           match err1 with
           | Some SkipDir => (s', None)
           | Some e => (s', Some e)
           | None => walkDirs l' s'
           end
       end) dirs s2
    = fs.callUntilError fn
        (flat_map (fun d1 => fs.visitsFrom (fs.Join name (fs.Name (fs.entry d1))) d1) dirs)
        s2).
  { clear Hdir.
    induction IHdirs as [|d1 dirs IHd1 _ IHrest]; intros s2; simpl; [reflexivity |].
    rewrite callUntilError_app, IHd1.
    pose proof (callUntilError_never_skips
                  (fs.visitsFrom (fs.Join name (fs.Name (fs.entry d1))) d1) s2) as [Hskip _].
    destruct (fs.callUntilError fn _ s2) as [s' [e|]]; simpl in Hskip.
    - destruct e; try reflexivity. contradiction.
    - apply IHrest. }
  destruct rderr as [re|]; simpl.
  - pose proof (fn_never_skips name (Some d) (Some re) s1) as [Hskip _].
    destruct (fn name (Some d) (Some re) s1) as [s2 [e|]]; simpl in Hskip.
    + destruct e; try reflexivity. contradiction.
    + apply Hdirs.
  - apply Hdirs.
Qed.

Lemma WalkDir_callUntilError (fsys : fs.FS) (root : string) (s : St) :
  fs.WalkDir fn fsys root s = fs.callUntilError fn (fs.visits fsys root) s.
Proof.
  unfold fs.WalkDir.
  assert (H : (match fsys with
               | fs.StatError e => fn root None (Some e) s
               | fs.Root n => fs.walkDir fn root n s
               end) = fs.callUntilError fn (fs.visits fsys root) s).
  { destruct fsys as [e|n]; simpl.
    - now destruct (fn root None (Some e) s) as [s' [x|]].
    - apply walkDir_callUntilError. }
  rewrite H.
  pose proof (callUntilError_never_skips (fs.visits fsys root) s) as [Hdir Hall].
  destruct (fs.callUntilError fn (fs.visits fsys root) s) as [s' [e|]]; simpl in *.
  - destruct e; try reflexivity; contradiction.
  - reflexivity.
Qed.

End Walk.

(** ** Where [WalkDir] delivers an error

    An error is delivered for the root when [Stat] fails, and for a directory
    when [ReadDir] fails; the directory has then been visited just before,
    with a nil error. *)

Section ErrorVisits.

Lemma visitsFrom_error_visit (n : fs.Node) :
  forall (name : string) (pre post : list fs.Visit) (path : string)
         (d : option fs.DirEntry) (err : error),
    fs.visitsFrom name n = pre ++ (path, d, Some err) :: post ->
    exists pre' de, d = Some de /\ pre = pre' ++ [(path, Some de, None)].
Proof.
  induction n as [d0 dirs rderr IHdirs] using Node_ind.
  intros name pre post path d err Hvisits.
  assert (Hdirs : forall a b,
    flat_map (fun d1 => fs.visitsFrom (fs.Join name (fs.Name (fs.entry d1))) d1) dirs
    = a ++ (path, d, Some err) :: b ->
    exists a' de, d = Some de /\ a = a' ++ [(path, Some de, None)]).
  { clear Hvisits.
    induction IHdirs as [|d1 dirs IHd1 _ IHrest]; intros a b Hflat; simpl in Hflat.
    - now destruct a.
    - apply app_eq_app in Hflat as [l [[Hd1 Hl]|[Ha Hrest]]].
      + destruct l as [|x l].
        * simpl in Hl. symmetry in Hl.
          destruct (IHrest [] b Hl) as (a' & de & _ & Hnil). now destruct a'.
        * injection Hl as <- _. exact (IHd1 _ _ _ _ _ _ Hd1).
      + destruct (IHrest _ _ Hrest) as (a' & de & -> & ->).
        exists (fs.visitsFrom (fs.Join name (fs.Name (fs.entry d1))) d1 ++ a'), de.
        split; [reflexivity |]. now rewrite Ha, app_assoc. }
  simpl in Hvisits.
  destruct pre as [|v0 pre1]; [discriminate |].
  injection Hvisits as <- Htail.
  destruct (fs.IsDir d0); [|now destruct pre1].
  destruct rderr as [re|]; simpl in Htail.
  - destruct pre1 as [|r pre2].
    + injection Htail as <- <- <- _. now exists [], d0.
    + injection Htail as <- Hflat.
      destruct (Hdirs _ _ Hflat) as (a' & de & -> & ->).
      now exists ((name, Some d0, None) :: (name, Some d0, Some re) :: a'), de.
  - destruct (Hdirs _ _ Htail) as (a' & de & -> & ->).
    now exists ((name, Some d0, None) :: a'), de.
Qed.

Lemma visits_error_visit (fsys : fs.FS) (root : string) (pre post : list fs.Visit)
  (path : string) (d : option fs.DirEntry) (err : error) :
  fs.visits fsys root = pre ++ (path, d, Some err) :: post ->
  match fsys with
  | fs.StatError e => pre = [] /\ path = root /\ d = None /\ err = e
  | fs.Root _ => exists pre' de, d = Some de /\ pre = pre' ++ [(path, Some de, None)]
  end.
Proof.
  destruct fsys as [e|n]; simpl; intros Hvisits.
  - destruct pre as [|v [|w pre]]; try discriminate.
    now injection Hvisits as <- <- <-.
  - exact (visitsFrom_error_visit _ _ _ _ _ _ _ Hvisits).
Qed.

End ErrorVisits.

(** ** The loop over the linters and the callback *)

Section Callback.

Variable lctx : LinterContext.

Lemma rangeLinters_app (path : string) (d : fs.DirEntry) (l1 l2 : list string) :
  rangeLinters lctx path d (l1 ++ l2)
  = match rangeLinters lctx path d l1 with
    | Some e => Some e
    | None => rangeLinters lctx path d l2
    end.
Proof.
  induction l1 as [|name l1 IH]; simpl; [reflexivity |].
  destruct (Linters !! name) as [linter|]; [|reflexivity].
  destruct (linterFunc linter lctx path d); [reflexivity | exact IH].
Qed.

(** The loop returns at the first linter that is unknown or fails. *)
Lemma rangeLinters_unknown (path : string) (d : fs.DirEntry) (lpre : list string)
  (bad : string) (lpost : list string) :
  rangeLinters lctx path d lpre = None ->
  Linters !! bad = None ->
  rangeLinters lctx path d (lpre ++ bad :: lpost) = Some (unknownLinterError bad).
Proof.
  intros Hpre Hbad. rewrite rangeLinters_app, Hpre. simpl. now rewrite Hbad.
Qed.

Lemma rangeLinters_failed (path : string) (d : fs.DirEntry) (lpre : list string)
  (name : string) (lpost : list string) (linter : Linter) (cause : error) :
  rangeLinters lctx path d lpre = None ->
  Linters !! name = Some linter ->
  linterFunc linter lctx path d = Some cause ->
  rangeLinters lctx path d (lpre ++ name :: lpost)
  = Some (linterFailedError name path cause (Explain linter)).
Proof.
  intros Hpre Hname Hfail. rewrite rangeLinters_app, Hpre. simpl.
  now rewrite Hname, Hfail.
Qed.

(** A list with an unknown name never passes. *)
Lemma rangeLinters_In_unknown (path : string) (d : fs.DirEntry) (linters : list string)
  (bad : string) :
  In bad linters -> Linters !! bad = None ->
  exists e, rangeLinters lctx path d linters = Some e.
Proof.
  intros Hin Hbad. induction linters as [|name linters IH]; [contradiction |].
  simpl. destruct (Linters !! name) as [linter|] eqn:E; [|eauto].
  destruct (linterFunc linter lctx path d); [eauto |].
  destruct Hin as [->|Hin]; [congruence | auto].
Qed.

(** An error of the loop comes from the first name of the list that is
    unknown or whose linter fails; the names before it passed. *)
Lemma rangeLinters_error_cases (path : string) (d : fs.DirEntry) (linters : list string)
  (e : error) :
  rangeLinters lctx path d linters = Some e ->
  exists lpre name lpost,
    linters = lpre ++ name :: lpost /\
    rangeLinters lctx path d lpre = None /\
    ((Linters !! name = None /\ e = unknownLinterError name) \/
     (exists linter cause,
        Linters !! name = Some linter /\
        linterFunc linter lctx path d = Some cause /\
        e = linterFailedError name path cause (Explain linter))).
Proof.
  induction linters as [|name linters IH]; simpl; [discriminate |].
  destruct (Linters !! name) as [linter|] eqn:Hname.
  - destruct (linterFunc linter lctx path d) as [cause|] eqn:Hcause.
    + intros [= <-]. exists [], name, linters.
      split; [reflexivity |]. split; [reflexivity |]. right. now exists linter, cause.
    + intros H. destruct (IH H) as (lpre & bad & lpost & -> & Hlpre & Hcases).
      exists (name :: lpre), bad, lpost.
      split; [reflexivity |]. split; [|exact Hcases].
      simpl. now rewrite Hname, Hcause.
  - intros [= <-]. exists [], name, linters.
    split; [reflexivity |]. split; [reflexivity |]. now left.
Qed.

(** The errors of the loop are built by [fmt.Errorf]: none is a sentinel. *)
Lemma rangeLinters_never_skips (path : string) (d : fs.DirEntry) (linters : list string) :
  rangeLinters lctx path d linters <> Some SkipDir /\
  rangeLinters lctx path d linters <> Some SkipAll.
Proof.
  induction linters as [|name linters IH]; simpl; [split; discriminate |].
  destruct (Linters !! name) as [linter|]; [|split; discriminate].
  destruct (linterFunc linter lctx path d); [split; discriminate | exact IH].
Qed.

Lemma walkCb_never_skips (linters : list string) (path : string)
  (d : option fs.DirEntry) (err : option error) :
  walkCb lctx linters path d err <> Some SkipDir /\
  walkCb lctx linters path d err <> Some SkipAll.
Proof.
  destruct err as [e|]; simpl; [split; discriminate |].
  destruct d as [d|]; [apply rangeLinters_never_skips | split; discriminate].
Qed.

(** The recorded run returns what the plain one returns. *)
Lemma rangeLintersTraced_result (path : string) (d : fs.DirEntry) (linters : list string)
  (log : list Call) :
  snd (rangeLintersTraced lctx path d linters log) = rangeLinters lctx path d linters.
Proof.
  revert log. induction linters as [|name linters IH]; intros log; simpl; [reflexivity |].
  destruct (Linters !! name) as [linter|]; [|reflexivity].
  destruct (linterFunc linter lctx path d); [reflexivity | apply IH].
Qed.

Lemma walkCbTraced_result (linters : list string) (path : string)
  (d : option fs.DirEntry) (err : option error) (log : list Call) :
  snd (walkCbTraced lctx linters path d err log) = walkCb lctx linters path d err.
Proof.
  destruct err as [e|]; simpl; [reflexivity |].
  destruct d as [d|]; [apply rangeLintersTraced_result | reflexivity].
Qed.

(** What the loop has recorded when it ends: all the names when every linter
    passed, the names up to the failing one when one failed, the names before
    the unknown one when the lookup failed. *)
Lemma rangeLintersTraced_passes (path : string) (d : fs.DirEntry) (linters : list string)
  (log : list Call) :
  rangeLinters lctx path d linters = None ->
  rangeLintersTraced lctx path d linters log = (log ++ map (pair path) linters, None).
Proof.
  revert log. induction linters as [|name linters IH]; intros log; simpl.
  - intros _. now rewrite app_nil_r.
  - destruct (Linters !! name) as [linter|]; [|discriminate].
    destruct (linterFunc linter lctx path d); [discriminate |].
    intros H. rewrite (IH _ H). now rewrite <- app_assoc.
Qed.

Lemma rangeLintersTraced_app (path : string) (d : fs.DirEntry) (l1 l2 : list string)
  (log : list Call) :
  rangeLinters lctx path d l1 = None ->
  rangeLintersTraced lctx path d (l1 ++ l2) log
  = rangeLintersTraced lctx path d l2 (log ++ map (pair path) l1).
Proof.
  revert log. induction l1 as [|name l1 IH]; intros log; simpl.
  - intros _. now rewrite app_nil_r.
  - destruct (Linters !! name) as [linter|]; [|discriminate].
    destruct (linterFunc linter lctx path d); [discriminate |].
    intros H. rewrite (IH _ H). now rewrite <- app_assoc.
Qed.

Lemma walkCbTraced_never_skips (linters : list string) :
  neverSkips (walkCbTraced lctx linters).
Proof.
  intros path d err log. rewrite walkCbTraced_result. apply walkCb_never_skips.
Qed.

Lemma walkCb_func_never_skips (linters : list string) :
  neverSkips (fun path d err (st : unit) => (st, walkCb lctx linters path d err)).
Proof. intros path d err st. apply walkCb_never_skips. Qed.

End Callback.

(** ** [lintPackageFs] on the visits of the tree *)

Section Enforcer.

Variable lctx : LinterContext.
Variable linters : list string.

(** The first error the callback returns on a list of visits. *)
Lemma callUntilError_first_failure (pre post : list fs.Visit) (path : string)
  (d : option fs.DirEntry) (err : option error) (e : error) :
  Forall (visitPasses lctx linters) pre ->
  walkCb lctx linters path d err = Some e ->
  fs.callUntilError (fun path d err (st : unit) => (st, walkCb lctx linters path d err))
    (pre ++ (path, d, err) :: post) tt = (tt, Some e).
Proof.
  intros Hpre Hfail. induction Hpre as [|[[p1 d1] e1] pre Hv _ IH]; simpl.
  - now rewrite Hfail.
  - unfold visitPasses in Hv. simpl in Hv. now rewrite Hv.
Qed.

Lemma callUntilError_all_pass (vs : list fs.Visit) :
  Forall (visitPasses lctx linters) vs ->
  fs.callUntilError (fun path d err (st : unit) => (st, walkCb lctx linters path d err))
    vs tt = (tt, None).
Proof.
  intros Hvs. induction Hvs as [|[[p1 d1] e1] vs Hv _ IH]; simpl; [reflexivity |].
  unfold visitPasses in Hv. simpl in Hv. now rewrite Hv.
Qed.

Lemma lintPackageFs_first_failure (fsys : fs.FS) (pre post : list fs.Visit)
  (path : string) (d : option fs.DirEntry) (err : option error) (e : error) :
  fs.visits fsys "." = pre ++ (path, d, err) :: post ->
  Forall (visitPasses lctx linters) pre ->
  walkCb lctx linters path d err = Some e ->
  lintPackageFs lctx fsys linters = Some e.
Proof.
  intros Hvisits Hpre Hfail. unfold lintPackageFs.
  rewrite (WalkDir_callUntilError _ (walkCb_func_never_skips lctx linters)), Hvisits.
  now rewrite (callUntilError_first_failure _ _ _ _ _ _ Hpre Hfail).
Qed.

Lemma lintPackageFs_all_pass (fsys : fs.FS) :
  Forall (visitPasses lctx linters) (fs.visits fsys ".") ->
  lintPackageFs lctx fsys linters = None.
Proof.
  intros Hvs. unfold lintPackageFs.
  rewrite (WalkDir_callUntilError _ (walkCb_func_never_skips lctx linters)).
  now rewrite (callUntilError_all_pass _ Hvs).
Qed.

(** Every run ends in one of two ways: the callback returned [nil] on every
    visit and the run returns [nil], or the run returns the error of the first
    visit on which the callback failed. *)
Lemma lintPackageFs_result_cases (fsys : fs.FS) :
  (Forall (visitPasses lctx linters) (fs.visits fsys ".") /\
   lintPackageFs lctx fsys linters = None) \/
  (exists pre path d err post e,
     fs.visits fsys "." = pre ++ (path, d, err) :: post /\
     Forall (visitPasses lctx linters) pre /\
     walkCb lctx linters path d err = Some e /\
     lintPackageFs lctx fsys linters = Some e).
Proof.
  assert (H : forall vs,
    Forall (visitPasses lctx linters) vs \/
    exists pre path d err post e,
      vs = pre ++ (path, d, err) :: post /\
      Forall (visitPasses lctx linters) pre /\
      walkCb lctx linters path d err = Some e).
  { induction vs as [|[[p1 d1] e1] vs IH]; [left; constructor |].
    destruct (walkCb lctx linters p1 d1 e1) as [e|] eqn:Hcb.
    - right. exists [], p1, d1, e1, vs, e. repeat split; [constructor | exact Hcb].
    - destruct IH as [Hall | (pre & path & d & err & post & e & -> & Hpre & Hfail)].
      + left. now constructor.
      + right. exists ((p1, d1, e1) :: pre), path, d, err, post, e.
        repeat split; [now constructor | exact Hfail]. }
  destruct (H (fs.visits fsys ".")) as [Hall | (pre & path & d & err & post & e & Hv & Hpre & Hfail)].
  - left. split; [exact Hall | now apply lintPackageFs_all_pass].
  - right. exists pre, path, d, err, post, e. repeat split; try assumption.
    exact (lintPackageFs_first_failure _ _ _ _ _ _ _ Hv Hpre Hfail).
Qed.

(** The recorded run, on visits that pass: each adds its calls to the log. *)
Lemma callUntilError_traced_passes (pre rest : list fs.Visit) (log : list Call) :
  Forall (visitPasses lctx linters) pre ->
  fs.callUntilError (walkCbTraced lctx linters) (pre ++ rest) log
  = fs.callUntilError (walkCbTraced lctx linters) rest
      (log ++ flat_map (callsOnVisit linters) pre).
Proof.
  intros Hpre. revert log.
  induction Hpre as [|[[p1 d1] e1] pre Hv _ IH]; intros log; simpl.
  - now rewrite app_nil_r.
  - unfold visitPasses in Hv. simpl in Hv.
    destruct e1 as [e1|]; [discriminate |]. destruct d1 as [d1|]; simpl.
    + rewrite (rangeLintersTraced_passes _ _ _ _ _ Hv), IH. now rewrite <- app_assoc.
    + apply IH.
Qed.

Lemma lintPackageFsTraced_visits (fsys : fs.FS) :
  lintPackageFsTraced lctx fsys linters
  = fs.callUntilError (walkCbTraced lctx linters) (fs.visits fsys ".") [].
Proof.
  unfold lintPackageFsTraced.
  apply WalkDir_callUntilError, walkCbTraced_never_skips.
Qed.

Lemma callUntilError_traced_result (vs : list fs.Visit) (log : list Call) :
  snd (fs.callUntilError (walkCbTraced lctx linters) vs log)
  = snd (fs.callUntilError
           (fun path d err (st : unit) => (st, walkCb lctx linters path d err)) vs tt).
Proof.
  revert log. induction vs as [|[[p1 d1] e1] vs IH]; intros log; simpl; [reflexivity |].
  pose proof (walkCbTraced_result lctx linters p1 d1 e1 log) as H.
  destruct (walkCbTraced lctx linters p1 d1 e1 log) as [log' r]. simpl in H. subst r.
  destruct (walkCb lctx linters p1 d1 e1); [reflexivity | apply IH].
Qed.

(** The recorded run returns the error [lintPackageFs] returns. *)
Lemma lintPackageFsTraced_result (fsys : fs.FS) :
  snd (lintPackageFsTraced lctx fsys linters) = lintPackageFs lctx fsys linters.
Proof.
  rewrite lintPackageFsTraced_visits. unfold lintPackageFs.
  rewrite (WalkDir_callUntilError _ (walkCb_func_never_skips lctx linters)).
  apply callUntilError_traced_result.
Qed.

End Enforcer.

(** ** The check predicates *)

Section Predicates.

Variable lctx : LinterContext.
Variable path : string.

(** C2. An entry whose path starts with usr/local/ fails the usrlocal check
    with the error [/usr/local path found in non-compat package] when the
    package name does not end in -compat; when the package name ends in
    -compat the check accepts every path. *)
Theorem usrLocalLinter_compat_exemption (d : fs.DirEntry) :
  (HasPrefix path "usr/local/" = true ->
   HasSuffix (pkgname lctx) "-compat" = false ->
   usrLocalLinter lctx path d
   = Some (errorString "/usr/local path found in non-compat package")) /\
  (HasSuffix (pkgname lctx) "-compat" = true ->
   forall (path' : string) (d' : fs.DirEntry), usrLocalLinter lctx path' d' = None).
Proof.
  unfold usrLocalLinter. split.
  - intros Hpath Hname. now rewrite isCompatPackage_spec, Hname, isUsrLocalRegex_spec, Hpath.
  - intros Hname path' d'. now rewrite isCompatPackage_spec, Hname.
Qed.

(** C6. The tempdir check fails, with the error [Package writes to a temp
    dir], exactly on the paths that start with tmp/, run/, var/tmp/ or
    var/run/; every other path passes, a path under usr/tmp/ among them. *)
Theorem tempDirLinter_anchored (d : fs.DirEntry) :
  tempDirLinter lctx path d
  = (if HasPrefix path "tmp/" || HasPrefix path "run/"
        || HasPrefix path "var/tmp/" || HasPrefix path "var/run/"
     then Some (errorString "Package writes to a temp dir")
     else None)
  /\ (forall rest : string, tempDirLinter lctx ("usr/tmp/" +:+ rest) d = None).
Proof.
  unfold tempDirLinter. split.
  - now rewrite isTempDirRegex_spec.
  - intros rest. now rewrite isTempDirRegex_spec.
Qed.

(** C4. An entry with the setgid bit set fails the setuidgid check, whatever
    its setuid bit; the failure is reported as [File is setgid] in the setgid
    case, that is exactly when the setuid bit is clear; an entry with neither
    bit set passes. *)
Theorem isSetUidOrGidLinter_setgid (d : fs.DirEntry) (info : fs.FileInfo) :
  fs.Info d = inl info ->
  Z.land (fs.Mode info) fs.ModeSetgid <> 0 ->
  (exists e, isSetUidOrGidLinter lctx path d = Some e) /\
  (isSetUidOrGidLinter lctx path d = Some (errorString "File is setgid") <->
   Z.land (fs.Mode info) fs.ModeSetuid = 0) /\
  (forall (d' : fs.DirEntry) (info' : fs.FileInfo),
     fs.Info d' = inl info' ->
     Z.land (fs.Mode info') fs.ModeSetuid = 0 ->
     Z.land (fs.Mode info') fs.ModeSetgid = 0 ->
     isSetUidOrGidLinter lctx path d' = None).
Proof.
  intros Hinfo Hgid. unfold isSetUidOrGidLinter.
  apply Z.eqb_neq in Hgid. repeat split.
  - rewrite Hinfo. cbv zeta. rewrite Hgid.
    destruct (Z.land (fs.Mode info) fs.ModeSetuid =? 0); simpl; eauto.
  - rewrite Hinfo. cbv zeta. rewrite Hgid.
    destruct (Z.eqb_spec (Z.land (fs.Mode info) fs.ModeSetuid) 0) as [Huid|Huid]; simpl.
    + tauto.
    + intros [=].
  - intros Huid. rewrite Hinfo. cbv zeta. now rewrite Huid, Hgid.
  - intros d' info' Hinfo' Huid Hgid'. rewrite Hinfo'. cbv zeta.
    now rewrite Huid, Hgid'.
Qed.

(** C9. An entry with the setuid bit set is reported as [File is setuid],
    also when its setgid bit is set too: the setgid branch is not reached. *)
Theorem isSetUidOrGidLinter_setuid_first (d : fs.DirEntry) (info : fs.FileInfo) :
  fs.Info d = inl info ->
  Z.land (fs.Mode info) fs.ModeSetuid <> 0 ->
  isSetUidOrGidLinter lctx path d = Some (errorString "File is setuid") /\
  isSetUidOrGidLinter lctx path d <> Some (errorString "File is setgid").
Proof.
  intros Hinfo Huid. unfold isSetUidOrGidLinter.
  apply Z.eqb_neq in Huid. rewrite Hinfo. cbv zeta. rewrite Huid. simpl.
  split; [reflexivity | discriminate].
Qed.

Lemma isSetUidOrGidLinter_neither (d : fs.DirEntry) (info : fs.FileInfo) :
  fs.Info d = inl info ->
  Z.land (fs.Mode info) fs.ModeSetuid = 0 ->
  Z.land (fs.Mode info) fs.ModeSetgid = 0 ->
  isSetUidOrGidLinter lctx path d = None.
Proof.
  intros Hinfo Huid Hgid. unfold isSetUidOrGidLinter.
  rewrite Hinfo. cbv zeta. now rewrite Huid, Hgid.
Qed.

(** When the metadata of the entry cannot be read, the setuidgid check
    returns the error of [Info()] as it is. *)
Lemma isSetUidOrGidLinter_Info_error (d : fs.DirEntry) (err : error) :
  fs.Info d = inr err -> isSetUidOrGidLinter lctx path d = Some err.
Proof. intros Hinfo. unfold isSetUidOrGidLinter. now rewrite Hinfo. Qed.

End Predicates.

(** ** The enforcer *)

Section EnforcerProperties.

Variable lctx : LinterContext.

(** The four entries of the registry. *)
Lemma Linters_setuidgid :
  Linters !! "setuidgid"
  = Some {| linterFunc := isSetUidOrGidLinter;
            Explain := "Unset the setuid/setgid bit on the relevant files, or remove this linter" |}.
Proof. reflexivity. Qed.

Lemma Linters_tempdir :
  Linters !! "tempdir"
  = Some {| linterFunc := tempDirLinter;
            Explain := "Remove any offending files in temporary dirs in the pipeline" |}.
Proof. reflexivity. Qed.

Lemma Linters_usrlocal :
  Linters !! "usrlocal"
  = Some {| linterFunc := usrLocalLinter;
            Explain := "This package should be a -compat package" |}.
Proof. reflexivity. Qed.

Lemma Linters_varempty :
  Linters !! "varempty"
  = Some {| linterFunc := varEmptyLinter;
            Explain := "Remove any offending files in /var/empty in the pipeline" |}.
Proof. reflexivity. Qed.

Lemma visits_Root (n : fs.Node) :
  exists rest, fs.visits (fs.Root n) "." = (".", Some (fs.entry n), None) :: rest.
Proof. destruct n as [d dirs rderr]. simpl. eauto. Qed.

(** The recorded run up to the visit where the callback returns its error. *)
Lemma lintPackageFsTraced_stops (fsys : fs.FS) (linters : list string)
  (pre post : list fs.Visit) (path : string) (d : option fs.DirEntry) (err : option error) :
  fs.visits fsys "." = pre ++ (path, d, err) :: post ->
  Forall (visitPasses lctx linters) pre ->
  forall e, walkCb lctx linters path d err = Some e ->
  lintPackageFsTraced lctx fsys linters
  = (fst (walkCbTraced lctx linters path d err (flat_map (callsOnVisit linters) pre)),
     Some e).
Proof.
  intros Hvisits Hpre e Hfail.
  rewrite lintPackageFsTraced_visits, Hvisits.
  rewrite (callUntilError_traced_passes _ _ _ _ _ Hpre). simpl.
  pose proof (walkCbTraced_result lctx linters path d err
                (flat_map (callsOnVisit linters) pre)) as H.
  destruct (walkCbTraced lctx linters path d err _) as [log r].
  simpl in H. subst r. now rewrite Hfail.
Qed.

(** The run stops at the first linter that rejects an entry. *)
Lemma lintPackageFs_stops_at_failed_linter (fsys : fs.FS) (linters : list string)
  (pre post : list fs.Visit) (path : string) (d : fs.DirEntry)
  (lpre lpost : list string) (name : string) (linter : Linter) (cause : error) :
  fs.visits fsys "." = pre ++ (path, Some d, None) :: post ->
  Forall (visitPasses lctx linters) pre ->
  linters = lpre ++ name :: lpost ->
  rangeLinters lctx path d lpre = None ->
  Linters !! name = Some linter ->
  linterFunc linter lctx path d = Some cause ->
  lintPackageFs lctx fsys linters
  = Some (linterFailedError name path cause (Explain linter)) /\
  lintPackageFsTraced lctx fsys linters
  = (flat_map (callsOnVisit linters) pre ++ map (pair path) lpre ++ [(path, name)],
     Some (linterFailedError name path cause (Explain linter))).
Proof.
  intros Hvisits Hpre Hlinters Hlpre Hname Hcause.
  assert (Hfail : walkCb lctx linters path (Some d) None
                  = Some (linterFailedError name path cause (Explain linter))).
  { subst linters. simpl. now apply rangeLinters_failed. }
  split.
  - exact (lintPackageFs_first_failure _ _ _ _ _ _ _ _ _ Hvisits Hpre Hfail).
  - rewrite (lintPackageFsTraced_stops _ _ _ _ _ _ _ Hvisits Hpre _ Hfail).
    f_equal. subst linters. simpl.
    rewrite (rangeLintersTraced_app _ _ _ _ _ _ Hlpre). simpl.
    rewrite Hname, Hcause. simpl. now rewrite <- app_assoc.
Qed.


(** C3. A run whose list of linters holds a name that is not registered
    returns an error, on every tree; when the root can be read and the linters
    listed before that name accept the root entry, the error is the one that
    says the linter is unknown, with its name. *)
Theorem lintPackageFs_unknown_linter (fsys : fs.FS) (linters : list string) (bad : string) :
  In bad linters ->
  Linters !! bad = None ->
  (exists e, lintPackageFs lctx fsys linters = Some e) /\
  (forall (n : fs.Node) (lpre lpost : list string),
     fsys = fs.Root n ->
     linters = lpre ++ bad :: lpost ->
     rangeLinters lctx "." (fs.entry n) lpre = None ->
     lintPackageFs lctx fsys linters = Some (unknownLinterError bad) /\
     Error (unknownLinterError bad) = "Linter " +:+ bad +:+ " is unknown").
Proof.
  intros Hin Hbad. split.
  - destruct fsys as [e|n].
    + exists (traversalError "." e).
      now apply (lintPackageFs_first_failure lctx linters (fs.StatError e) [] []
                   "." None (Some e)).
    + destruct (visits_Root n) as [rest Hvisits].
      destruct (rangeLinters_In_unknown lctx "." (fs.entry n) linters bad Hin Hbad)
        as [e He].
      exists e.
      now apply (lintPackageFs_first_failure lctx linters (fs.Root n) [] rest
                   "." (Some (fs.entry n)) None).
  - intros n lpre lpost -> -> Hlpre. split; [|reflexivity].
    destruct (visits_Root n) as [rest Hvisits].
    apply (lintPackageFs_first_failure lctx _ (fs.Root n) [] rest
             "." (Some (fs.entry n)) None); [exact Hvisits | constructor |].
    simpl. now apply rangeLinters_unknown.
Qed.

(** C5. When a linter returns an error for an entry, be it a violation or a
    failure to read the metadata, the error [lintPackageFs] returns holds the
    name of the linter, the path of the entry, the text of the cause and the
    hint registered for the linter, and it wraps the cause. *)
Theorem lintPackageFs_failure_message (fsys : fs.FS) (linters : list string)
  (path : string) (d : fs.DirEntry) (name : string) (linter : Linter) (cause : error) :
  firstFailureAt lctx fsys linters path d name linter cause ->
  exists e,
    lintPackageFs lctx fsys linters = Some e /\
    Error e = "Linter " +:+ name +:+ " failed at path " +:+ dquote +:+ path +:+ dquote
              +:+ ": " +:+ Error cause +:+ "; suggest: " +:+ Explain linter /\
    Contains (Error e) name /\
    Contains (Error e) path /\
    Contains (Error e) (Error cause) /\
    Contains (Error e) (Explain linter) /\
    Unwrap e = Some cause.
Proof.
  intros (pre & post & lpre & lpost & Hvisits & Hpre & Hlinters & Hlpre & Hname & Hcause).
  exists (linterFailedError name path cause (Explain linter)).
  split.
  { exact (proj1 (lintPackageFs_stops_at_failed_linter _ _ _ _ _ _ _ _ _ _ _
                    Hvisits Hpre Hlinters Hlpre Hname Hcause)). }
  unfold linterFailedError. simpl.
  split; [reflexivity |]. split; [|split; [|split; [|split; [|reflexivity]]]].
  - now exists "Linter "%string,
      (" failed at path " +:+ dquote +:+ path +:+ dquote +:+ ": " +:+ Error cause
         +:+ "; suggest: " +:+ Explain linter).
  - exists ("Linter " +:+ name +:+ " failed at path " +:+ dquote),
      (dquote +:+ ": " +:+ Error cause +:+ "; suggest: " +:+ Explain linter).
    now rewrite !append_assoc.
  - exists ("Linter " +:+ name +:+ " failed at path " +:+ dquote +:+ path +:+ dquote +:+ ": "),
      ("; suggest: " +:+ Explain linter).
    now rewrite !append_assoc.
  - exists ("Linter " +:+ name +:+ " failed at path " +:+ dquote +:+ path +:+ dquote +:+ ": "
              +:+ Error cause +:+ "; suggest: "), ""%string.
    now rewrite !append_assoc, append_empty_r.
Qed.

(** C7, as the code has it.  When [WalkDir] calls the callback with an error
    for a path, and the callback returned [nil] on the earlier visits,
    [lintPackageFs] returns an error that wraps the cause and holds the path,
    whatever the linters requested, and that call of the callback runs no
    linter: the calls recorded are those of the earlier visits.  When the
    error is that of the [Stat] of the root, no linter has run at all; when it
    is that of the [ReadDir] of a directory, the visit before is the one of
    that directory with a nil error, so every requested linter has run on its
    entry, and passed. *)
Theorem lintPackageFs_traversal_error (fsys : fs.FS) (linters : list string)
  (pre post : list fs.Visit) (path : string) (d : option fs.DirEntry) (err : error) :
  fs.visits fsys "." = pre ++ (path, d, Some err) :: post ->
  Forall (visitPasses lctx linters) pre ->
  lintPackageFs lctx fsys linters = Some (traversalError path err) /\
  Unwrap (traversalError path err) = Some err /\
  Contains (Error (traversalError path err)) path /\
  Contains (Error (traversalError path err)) (Error err) /\
  lintPackageFsTraced lctx fsys linters
  = (flat_map (callsOnVisit linters) pre, Some (traversalError path err)) /\
  match fsys with
  | fs.StatError _ => d = None /\ fst (lintPackageFsTraced lctx fsys linters) = []
  | fs.Root _ =>
      exists pre' de,
        d = Some de /\
        pre = pre' ++ [(path, Some de, None)] /\
        fst (lintPackageFsTraced lctx fsys linters)
        = flat_map (callsOnVisit linters) pre' ++ map (pair path) linters
  end.
Proof.
  intros Hvisits Hpre.
  assert (Hfail : walkCb lctx linters path d (Some err) = Some (traversalError path err))
    by reflexivity.
  assert (Htrace : lintPackageFsTraced lctx fsys linters
                   = (flat_map (callsOnVisit linters) pre, Some (traversalError path err)))
    by now rewrite (lintPackageFsTraced_stops _ _ _ _ _ _ _ Hvisits Hpre _ Hfail).
  split; [|split; [|split; [|split; [|split]]]].
  - exact (lintPackageFs_first_failure _ _ _ _ _ _ _ _ _ Hvisits Hpre Hfail).
  - reflexivity.
  - unfold traversalError. simpl.
    now exists "Error traversing tree at "%string, (": " +:+ Error err).
  - unfold traversalError. simpl.
    exists ("Error traversing tree at " +:+ path +:+ ": "), ""%string.
    now rewrite !append_assoc, append_empty_r.
  - exact Htrace.
  - rewrite Htrace. pose proof (visits_error_visit _ _ _ _ _ _ _ Hvisits) as Hwhere.
    destruct fsys as [e|n].
    + destruct Hwhere as (-> & _ & -> & _). now split.
    + destruct Hwhere as (pre' & de & -> & ->). exists pre', de.
      split; [reflexivity |]. split; [reflexivity |].
      simpl. rewrite flat_map_app. simpl. now rewrite app_nil_r.
Qed.

(** C8. The default set of linters accepts the tree that holds only its root
    directory, with neither the setuid nor the setgid bit, for every package
    name and context. *)
Theorem lintPackageFs_empty_tree (info : fs.FileInfo) :
  Z.land (fs.Mode info) fs.ModeSetuid = 0 ->
  Z.land (fs.Mode info) fs.ModeSetgid = 0 ->
  lintPackageFs lctx (emptyTree info) defaultLinters = None.
Proof.
  intros Huid Hgid. apply lintPackageFs_all_pass.
  set (d := {| fs.Name := "."; fs.IsDir := true; fs.Info := inl info |}).
  change (fs.visits (emptyTree info) ".") with [(".", Some d, @None error)].
  repeat constructor. unfold visitPasses, defaultLinters.
  cbn [fst snd walkCb rangeLinters].
  rewrite Linters_setuidgid. cbn [linterFunc].
  rewrite (isSetUidOrGidLinter_neither lctx "." d info eq_refl Huid Hgid).
  rewrite Linters_tempdir. cbn [linterFunc].
  replace (tempDirLinter lctx "." _) with (@None error) by reflexivity.
  rewrite Linters_usrlocal. cbn [linterFunc].
  replace (usrLocalLinter lctx "." _) with (@None error)
    by (unfold usrLocalLinter; now destruct (MatchString isCompatPackage (pkgname lctx))).
  rewrite Linters_varempty. reflexivity.
Qed.

(** C10. An unknown name is found while the first entry is visited, not
    before the walk.  On the root entry the linters listed before the unknown
    name are looked up and called first: when they all pass, the run has
    called them all and returns the unknown-linter error; when one of them
    fails, the run returns the error of that linter, not the unknown-linter
    error, and has called nothing after it. *)
Theorem lintPackageFs_unknown_after_failure (n : fs.Node)
  (lpre mid lpost : list string) (name bad : string) (linter : Linter) (cause : error) :
  Linters !! bad = None ->
  rangeLinters lctx "." (fs.entry n) lpre = None ->
  Linters !! name = Some linter ->
  linterFunc linter lctx "." (fs.entry n) = Some cause ->
  lintPackageFs lctx (fs.Root n) (lpre ++ name :: mid ++ bad :: lpost)
  = Some (linterFailedError name "." cause (Explain linter)) /\
  lintPackageFs lctx (fs.Root n) (lpre ++ name :: mid ++ bad :: lpost)
  <> Some (unknownLinterError bad) /\
  lintPackageFsTraced lctx (fs.Root n) (lpre ++ name :: mid ++ bad :: lpost)
  = (map (pair ".") lpre ++ [(".", name)],
     Some (linterFailedError name "." cause (Explain linter))) /\
  lintPackageFsTraced lctx (fs.Root n) (lpre ++ bad :: lpost)
  = (map (pair ".") lpre, Some (unknownLinterError bad)) /\
  (forall e : error,
     lintPackageFsTraced lctx (fs.StatError e) (lpre ++ bad :: lpost)
     = ([], Some (traversalError "." e))).
Proof.
  intros Hbad Hlpre Hname Hcause.
  destruct (visits_Root n) as [rest Hvisits].
  destruct (lintPackageFs_stops_at_failed_linter (fs.Root n) (lpre ++ name :: mid ++ bad :: lpost)
              [] rest "." (fs.entry n) lpre (mid ++ bad :: lpost) name linter cause
              Hvisits (Forall_nil_2 _) eq_refl Hlpre Hname Hcause) as [Hres Htrace].
  split; [|split; [|split; [|split]]].
  - exact Hres.
  - rewrite Hres. discriminate.
  - exact Htrace.
  - assert (Hfail : walkCb lctx (lpre ++ bad :: lpost) "." (Some (fs.entry n)) None
                    = Some (unknownLinterError bad)).
    { simpl. now apply rangeLinters_unknown. }
    rewrite (lintPackageFsTraced_stops (fs.Root n) _ [] rest _ _ _
               Hvisits (Forall_nil_2 _) _ Hfail).
    f_equal. simpl. rewrite (rangeLintersTraced_app _ _ _ _ _ _ Hlpre). simpl.
    now rewrite Hbad.
  - intros e.
    now rewrite (lintPackageFsTraced_stops (fs.StatError e) _ [] [] "." None (Some e)
                   eq_refl (Forall_nil_2 _) (traversalError "." e) eq_refl).
Qed.

End EnforcerProperties.

(** ** The theorems on concrete packages *)

Section Examples.

Lemma usrLocalLinter_compat_exemption_example :
  usrLocalLinter (pkg "foo") "usr/local/bin/tool" (fileEntry "tool" perm755)
  = Some (errorString "/usr/local path found in non-compat package") /\
  usrLocalLinter (pkg "foo-compat") "usr/local/bin/tool" (fileEntry "tool" perm755) = None.
Proof.
  split.
  - apply (proj1 (usrLocalLinter_compat_exemption (pkg "foo") "usr/local/bin/tool"
                    (fileEntry "tool" perm755))); reflexivity.
  - apply (proj2 (usrLocalLinter_compat_exemption (pkg "foo-compat") "usr/local/bin/tool"
                    (fileEntry "tool" perm755))); reflexivity.
Defined.

Lemma isSetUidOrGidLinter_setgid_example :
  isSetUidOrGidLinter (pkg "foo") "usr/bin/wall"
    (fileEntry "wall" (Z.lor fs.ModeSetgid perm755))
  = Some (errorString "File is setgid") /\
  isSetUidOrGidLinter (pkg "foo") "usr/bin/wall" (fileEntry "wall" perm755) = None.
Proof.
  pose proof (isSetUidOrGidLinter_setgid (pkg "foo") "usr/bin/wall"
                (fileEntry "wall" (Z.lor fs.ModeSetgid perm755))
                {| fs.Mode := Z.lor fs.ModeSetgid perm755 |} eq_refl) as H.
  destruct H as (_ & Hgid & Hnone); [vm_compute; lia |].
  split.
  - apply (proj2 Hgid). reflexivity.
  - apply (Hnone (fileEntry "wall" perm755) {| fs.Mode := perm755 |}); reflexivity.
Defined.

Lemma isSetUidOrGidLinter_setuid_first_example :
  isSetUidOrGidLinter (pkg "foo") "usr/bin/su"
    (fileEntry "su" (Z.lor (Z.lor fs.ModeSetuid fs.ModeSetgid) perm755))
  = Some (errorString "File is setuid").
Proof.
  apply (isSetUidOrGidLinter_setuid_first (pkg "foo") "usr/bin/su"
           (fileEntry "su" (Z.lor (Z.lor fs.ModeSetuid fs.ModeSetgid) perm755))
           {| fs.Mode := Z.lor (Z.lor fs.ModeSetuid fs.ModeSetgid) perm755 |}).
  - reflexivity.
  - vm_compute. lia.
Defined.


Lemma lintPackageFs_unknown_linter_example :
  lintPackageFs (pkg "foo") twoViolations ["setuidgid"; "bogus"; "tempdir"]
  = Some (errorString "Linter bogus is unknown").
Proof.
  destruct (lintPackageFs_unknown_linter (pkg "foo") twoViolations
              ["setuidgid"; "bogus"; "tempdir"] "bogus") as [_ H].
  - simpl. tauto.
  - reflexivity.
  - refine (proj1 (H _ ["setuidgid"] ["tempdir"] eq_refl eq_refl _)). reflexivity.
Defined.

Lemma lintPackageFs_failure_message_example :
  exists e,
    lintPackageFs (pkg "foo") unreadableMetadata defaultLinters = Some e /\
    Error e = "Linter setuidgid failed at path " +:+ dquote +:+ "etc/shadow" +:+ dquote
              +:+ ": lstat etc/shadow: permission denied; suggest: "
              +:+ "Unset the setuid/setgid bit on the relevant files, or remove this linter" /\
    Contains (Error e) "setuidgid" /\
    Contains (Error e) "etc/shadow" /\
    Contains (Error e) "lstat etc/shadow: permission denied" /\
    Contains (Error e)
      "Unset the setuid/setgid bit on the relevant files, or remove this linter" /\
    Unwrap e = Some (permissionDenied "lstat" "etc/shadow").
Proof.
  apply (lintPackageFs_failure_message (pkg "foo") unreadableMetadata defaultLinters
           "etc/shadow"
           {| fs.Name := "shadow"; fs.IsDir := false;
              fs.Info := inr (permissionDenied "lstat" "etc/shadow") |}
           "setuidgid"
           {| linterFunc := isSetUidOrGidLinter;
              Explain := "Unset the setuid/setgid bit on the relevant files, or remove this linter" |}
           (permissionDenied "lstat" "etc/shadow")).
  exists (take 2 (fs.visits unreadableMetadata ".")), [], [], ["tempdir"; "usrlocal"; "varempty"].
  split; [reflexivity |].
  split; [repeat constructor |].
  repeat split; reflexivity.
Defined.

Lemma lintPackageFs_traversal_error_example :
  lintPackageFs (pkg "foo") unreadableDir defaultLinters
  = Some (traversalError "priv" (permissionDenied "open" "priv")).
Proof.
  apply (lintPackageFs_traversal_error (pkg "foo") unreadableDir defaultLinters
           (take 2 (fs.visits unreadableDir ".")) [] "priv"
           (Some (dirEntry "priv" perm755)) (permissionDenied "open" "priv")).
  - reflexivity.
  - repeat constructor.
Defined.

Lemma lintPackageFs_empty_tree_example :
  lintPackageFs (pkg "foo") (emptyTree {| fs.Mode := Z.lor fs.ModeDir perm755 |})
    defaultLinters = None.
Proof.
  apply (lintPackageFs_empty_tree (pkg "foo") {| fs.Mode := Z.lor fs.ModeDir perm755 |});
    reflexivity.
Defined.

Lemma lintPackageFs_unknown_after_failure_example :
  lintPackageFs (pkg "foo") (unreadableRoot (Z.lor fs.ModeSetgid perm755))
    ["tempdir"; "setuidgid"; "usrlocal"; "bogus"]
  = Some (linterFailedError "setuidgid" "." (errorString "File is setgid")
            "Unset the setuid/setgid bit on the relevant files, or remove this linter").
Proof.
  apply (lintPackageFs_unknown_after_failure (pkg "foo")
           (dirNode "." (Z.lor fs.ModeSetgid perm755) []
              (Some (permissionDenied "open" ".")))
           ["tempdir"] ["usrlocal"] [] "setuidgid" "bogus"
           {| linterFunc := isSetUidOrGidLinter;
              Explain := "Unset the setuid/setgid bit on the relevant files, or remove this linter" |}
           (errorString "File is setgid")); reflexivity.
Defined.

(** A directory that cannot be listed is visited twice.  The first call of
    the callback has a nil error and runs the linters on the entry; only the
    second call delivers the error of [ReadDir].  So a linter has run on the
    entry of the offending path before the traversal error is returned, and a
    linter that rejects that entry is what the run returns, not the traversal
    error. *)
Lemma lintPackageFs_checks_run_before_ReadDir_error :
  fs.visits (unreadableRoot perm755) "."
  = [(".", Some (dirEntry "." perm755), None);
     (".", Some (dirEntry "." perm755), Some (permissionDenied "open" "."))] /\
  lintPackageFsTraced (pkg "foo") (unreadableRoot perm755) ["tempdir"]
  = ([(".", "tempdir")], Some (traversalError "." (permissionDenied "open" "."))) /\
  lintPackageFs (pkg "foo") (unreadableRoot (Z.lor fs.ModeSetgid perm755)) []
  = Some (traversalError "." (permissionDenied "open" ".")) /\
  lintPackageFs (pkg "foo") (unreadableRoot (Z.lor fs.ModeSetgid perm755)) ["setuidgid"]
  = Some (linterFailedError "setuidgid" "." (errorString "File is setgid")
            "Unset the setuid/setgid bit on the relevant files, or remove this linter").
Proof. repeat split; reflexivity. Qed.


End Examples.

(** * Further properties of the linters and of the enforcer *)

(** ** The predicates on their own *)

Section MorePredicates.

Variable lctx : LinterContext.
Variable path : string.
Variable d : fs.DirEntry.

(** X1. The varempty check fails, with the error [Package writes to
    /var/empty], exactly on the paths that start with var/empty/; the
    directory var/empty itself and a path under var/empty2/ pass. *)
Theorem varEmptyLinter_anchored :
  varEmptyLinter lctx path d
  = (if HasPrefix path "var/empty/"
     then Some (errorString "Package writes to /var/empty")
     else None)
  /\ varEmptyLinter lctx "var/empty" d = None
  /\ (forall rest : string, varEmptyLinter lctx ("var/empty2/" +:+ rest) d = None).
Proof.
  unfold varEmptyLinter. split; [|split].
  - now rewrite isVarEmptyRegex_spec.
  - reflexivity.
  - intros rest. now rewrite isVarEmptyRegex_spec.
Qed.

(** X2. The usrlocal check fails exactly when the package name does not end
    in -compat and the path starts with usr/local/; every other path passes,
    the directory usr/local itself among them. *)
Theorem usrLocalLinter_exact :
  usrLocalLinter lctx path d
  = (if HasSuffix (pkgname lctx) "-compat" then None
     else if HasPrefix path "usr/local/"
     then Some (errorString "/usr/local path found in non-compat package")
     else None)
  /\ usrLocalLinter lctx "usr/local" d = None.
Proof.
  unfold usrLocalLinter. rewrite !isCompatPackage_spec. split.
  - now rewrite isUsrLocalRegex_spec.
  - now destruct (HasSuffix (pkgname lctx) "-compat").
Qed.

(** The mask test of one mode bit reads that bit. *)
Lemma land_shiftl_1_eqb (m k : Z) :
  0 <= k -> (Z.land m (Z.shiftl 1 k) =? 0) = negb (Z.testbit m k).
Proof.
  intros Hk. rewrite Z.shiftl_1_l.
  assert (H : Z.land m (2 ^ k) = if Z.testbit m k then 2 ^ k else 0).
  { apply Z.bits_inj'. intros n Hn. rewrite Z.land_spec, Z.pow2_bits_eqb by exact Hk.
    destruct (Z.eqb_spec k n) as [->|Hne].
    - rewrite andb_true_r. destruct (Z.testbit m n) eqn:E.
      + now rewrite Z.pow2_bits_true.
      + now rewrite Z.bits_0.
    - rewrite andb_false_r. destruct (Z.testbit m k).
      + rewrite Z.pow2_bits_false; [reflexivity | exact Hne].
      + now rewrite Z.bits_0. }
  rewrite H. destruct (Z.testbit m k); simpl.
  - apply Z.eqb_neq. pose proof (Z.pow_pos_nonneg 2 k). lia.
  - reflexivity.
Qed.

Lemma isSetUidOrGidLinter_testbit :
  isSetUidOrGidLinter lctx path d
  = match fs.Info d with
    | inr err => Some err
    | inl info =>
        if Z.testbit (fs.Mode info) 23 then Some (errorString "File is setuid")
        else if Z.testbit (fs.Mode info) 22 then Some (errorString "File is setgid")
        else None
    end.
Proof.
  unfold isSetUidOrGidLinter, fs.ModeSetuid, fs.ModeSetgid.
  destruct (fs.Info d) as [info|err]; [|reflexivity]. cbv zeta.
  rewrite !land_shiftl_1_eqb by lia. rewrite !negb_involutive.
  reflexivity.
Qed.

(** X3. The setuidgid check reads two bits of the mode and nothing else:
    bit 23 (setuid) and bit 22 (setgid) of the 32-bit Go file mode; an error
    of [Info()] is returned as it is.  Two entries whose modes agree on these
    two bits get the same answer, whatever their other mode bits, their
    paths and the contexts. *)
Theorem isSetUidOrGidLinter_bits :
  isSetUidOrGidLinter lctx path d
  = match fs.Info d with
    | inr err => Some err
    | inl info =>
        if Z.testbit (fs.Mode info) 23 then Some (errorString "File is setuid")
        else if Z.testbit (fs.Mode info) 22 then Some (errorString "File is setgid")
        else None
    end /\
  (forall (lctx' : LinterContext) (path' : string) (d' : fs.DirEntry)
          (info info' : fs.FileInfo),
     fs.Info d = inl info ->
     fs.Info d' = inl info' ->
     Z.testbit (fs.Mode info') 23 = Z.testbit (fs.Mode info) 23 ->
     Z.testbit (fs.Mode info') 22 = Z.testbit (fs.Mode info) 22 ->
     isSetUidOrGidLinter lctx' path' d' = isSetUidOrGidLinter lctx path d).
Proof.
  split; [exact isSetUidOrGidLinter_testbit |].
  intros lctx' path' d' info info' Hinfo Hinfo' Huid Hgid.
  rewrite isSetUidOrGidLinter_testbit, Hinfo.
  unfold isSetUidOrGidLinter, fs.ModeSetuid, fs.ModeSetgid. rewrite Hinfo'. cbv zeta.
  rewrite !land_shiftl_1_eqb by lia. rewrite !negb_involutive.
  change (32 - 1 - 8) with 23. change (32 - 1 - 9) with 22.
  now rewrite Huid, Hgid.
Qed.

Lemma containsSlash_append (a b : string) :
  containsSlash (a +:+ b) = containsSlash a || containsSlash b.
Proof.
  induction a as [|c a IH]; [reflexivity |].
  rewrite append_cons. simpl. now rewrite IH, orb_assoc.
Qed.

Lemma HasPrefix_containsSlash (s prefix : string) :
  containsSlash prefix = true -> containsSlash s = false -> HasPrefix s prefix = false.
Proof.
  intros Hprefix Hs. destruct (HasPrefix s prefix) eqn:E; [|reflexivity].
  apply HasPrefix_spec in E as [rest ->].
  rewrite containsSlash_append, Hprefix in Hs. discriminate.
Qed.

(** X13. An entry at the top of the tree, whose path has no slash, passes
    the three path checks: a directory named tmp, run or var is not itself a
    violation, only what lies under it can be. *)
Theorem path_linters_accept_top_level :
  containsSlash path = false ->
  tempDirLinter lctx path d = None /\
  varEmptyLinter lctx path d = None /\
  usrLocalLinter lctx path d = None.
Proof.
  intros Hpath.
  unfold tempDirLinter, varEmptyLinter, usrLocalLinter.
  rewrite isTempDirRegex_spec, isVarEmptyRegex_spec, isUsrLocalRegex_spec.
  rewrite (HasPrefix_containsSlash path "tmp/" eq_refl Hpath),
    (HasPrefix_containsSlash path "run/" eq_refl Hpath),
    (HasPrefix_containsSlash path "var/tmp/" eq_refl Hpath),
    (HasPrefix_containsSlash path "var/run/" eq_refl Hpath),
    (HasPrefix_containsSlash path "var/empty/" eq_refl Hpath),
    (HasPrefix_containsSlash path "usr/local/" eq_refl Hpath). simpl.
  repeat split. now destruct (MatchString isCompatPackage (pkgname lctx)).
Qed.

(** Two prefixes that differ on a byte cannot both start the same path. *)
Lemma HasPrefix_exclusive (s p1 p2 : string) :
  (forall r1 r2, p1 +:+ r1 <> p2 +:+ r2) ->
  HasPrefix s p1 = true -> HasPrefix s p2 = false.
Proof.
  intros Hdiff H1. destruct (HasPrefix s p2) eqn:H2; [|reflexivity].
  apply HasPrefix_spec in H1 as [r1 ->]. apply HasPrefix_spec in H2 as [r2 H2].
  now apply Hdiff in H2.
Qed.

(** X12. No path is rejected by two of the three path checks: the patterns
    of tempdir, varempty and usrlocal exclude one another. *)
Theorem path_linters_exclusive :
  (tempDirLinter lctx path d <> None ->
   varEmptyLinter lctx path d = None /\ usrLocalLinter lctx path d = None) /\
  (varEmptyLinter lctx path d <> None ->
   tempDirLinter lctx path d = None /\ usrLocalLinter lctx path d = None) /\
  (usrLocalLinter lctx path d <> None ->
   tempDirLinter lctx path d = None /\ varEmptyLinter lctx path d = None).
Proof.
  assert (Hex : forall p1 p2 : string,
             (forall r1 r2, p1 +:+ r1 <> p2 +:+ r2) ->
             HasPrefix path p1 && HasPrefix path p2 = false).
  { intros p1 p2 Hdiff. destruct (HasPrefix path p1) eqn:H1; [|reflexivity].
    now rewrite (HasPrefix_exclusive _ _ _ Hdiff H1). }
  assert (Ht_v : (HasPrefix path "tmp/" || HasPrefix path "run/"
                  || HasPrefix path "var/tmp/" || HasPrefix path "var/run/")
                 && HasPrefix path "var/empty/" = false).
  { rewrite !andb_orb_distrib_l.
    rewrite !Hex; [reflexivity | | | |]; intros r1 r2 H; vm_compute in H; discriminate. }
  assert (Ht_u : (HasPrefix path "tmp/" || HasPrefix path "run/"
                  || HasPrefix path "var/tmp/" || HasPrefix path "var/run/")
                 && HasPrefix path "usr/local/" = false).
  { rewrite !andb_orb_distrib_l.
    rewrite !Hex; [reflexivity | | | |]; intros r1 r2 H; vm_compute in H; discriminate. }
  assert (Hv_u : HasPrefix path "var/empty/" && HasPrefix path "usr/local/" = false).
  { apply Hex. intros r1 r2 H. vm_compute in H. discriminate. }
  unfold tempDirLinter, varEmptyLinter, usrLocalLinter.
  rewrite isTempDirRegex_spec, isVarEmptyRegex_spec, isUsrLocalRegex_spec.
  destruct (HasPrefix path "tmp/" || HasPrefix path "run/"
            || HasPrefix path "var/tmp/" || HasPrefix path "var/run/");
    destruct (HasPrefix path "var/empty/");
    destruct (HasPrefix path "usr/local/");
    destruct (MatchString isCompatPackage (pkgname lctx));
    simpl in *; try discriminate; repeat split; congruence.
Qed.

End MorePredicates.

(** ** The registry *)

Section Registry.

(** X4. The registry holds the four names setuidgid, tempdir, usrlocal and
    varempty and no other: a lookup succeeds exactly on these, byte for
    byte, and no registered linter has an empty hint. *)
Theorem Linters_registered (name : string) :
  (is_Some (Linters !! name) <-> In name defaultLinters) /\
  (forall linter, Linters !! name = Some linter -> Explain linter <> ""%string).
Proof.
  assert (Hiff : is_Some (Linters !! name) <-> In name defaultLinters).
  { unfold defaultLinters. simpl.
    destruct (decide (name = "setuidgid")) as [->|H1];
      [rewrite Linters_setuidgid; split; eauto |].
    destruct (decide (name = "tempdir")) as [->|H2];
      [rewrite Linters_tempdir; split; eauto |].
    destruct (decide (name = "usrlocal")) as [->|H3];
      [rewrite Linters_usrlocal; split; eauto |].
    destruct (decide (name = "varempty")) as [->|H4];
      [rewrite Linters_varempty; split; eauto 6 |].
    unfold Linters. cbn [list_to_map foldr fst snd uncurry].
    rewrite !lookup_insert_ne by congruence. rewrite lookup_empty. split.
    - intros Hsome. now apply is_Some_None in Hsome.
    - intros [E|[E|[E|[E|[]]]]]; congruence. }
  split; [exact Hiff |].
  intros linter Hlookup.
  assert (Hin : In name defaultLinters) by (apply Hiff; eauto).
  destruct Hin as [<-|[<-|[<-|[<-|[]]]]].
  - rewrite Linters_setuidgid in Hlookup. injection Hlookup as <-. discriminate.
  - rewrite Linters_tempdir in Hlookup. injection Hlookup as <-. discriminate.
  - rewrite Linters_usrlocal in Hlookup. injection Hlookup as <-. discriminate.
  - rewrite Linters_varempty in Hlookup. injection Hlookup as <-. discriminate.
Qed.

End Registry.

(** ** Runs that succeed, and the lists of linters *)

Section Success.

Variable lctx : LinterContext.

(** The loop passes an entry when every name of the list is registered and
    its linter accepts the entry. *)
Lemma rangeLinters_None_iff (path : string) (d : fs.DirEntry) (linters : list string) :
  rangeLinters lctx path d linters = None <->
  forall name, In name linters ->
    exists linter, Linters !! name = Some linter /\ linterFunc linter lctx path d = None.
Proof.
  induction linters as [|n linters IH]; simpl.
  - split; [intros _ name [] | reflexivity].
  - destruct (Linters !! n) as [linter|] eqn:Hn.
    + destruct (linterFunc linter lctx path d) as [cause|] eqn:Hcause.
      * split; [discriminate |]. intros H.
        destruct (H n (or_introl eq_refl)) as (l & Hl & Hpass). congruence.
      * rewrite IH. split.
        -- intros H name [<-|Hin]; [now exists linter | now apply H].
        -- intros H name Hin. apply H. now right.
    + split; [discriminate |]. intros H.
      destruct (H n (or_introl eq_refl)) as (l & Hl & _). congruence.
Qed.

Lemma lintPackageFs_None_iff (fsys : fs.FS) (linters : list string) :
  lintPackageFs lctx fsys linters = None <->
  Forall (visitPasses lctx linters) (fs.visits fsys ".").
Proof.
  split; [|apply lintPackageFs_all_pass].
  intros Hnone.
  destruct (lintPackageFs_result_cases lctx linters fsys)
    as [[Hall _] | (pre & path & d & err & post & e & _ & _ & _ & Hsome)];
    [exact Hall | congruence].
Qed.

(** What it takes for the callback to return [nil] on a visit. *)
Lemma visitPasses_iff (linters : list string) (path : string)
  (d : option fs.DirEntry) (err : option error) :
  visitPasses lctx linters (path, d, err) <->
  err = None /\
  forall de name, d = Some de -> In name linters ->
    exists linter, Linters !! name = Some linter /\ linterFunc linter lctx path de = None.
Proof.
  unfold visitPasses. simpl. destruct err as [err|]; simpl.
  - split; [discriminate | now intros [H _]].
  - destruct d as [d|].
    + rewrite rangeLinters_None_iff. split.
      * intros H. split; [reflexivity |]. intros de name [= <-]. apply H.
      * intros [_ H] name Hin. now apply (H d).
    + split; [|reflexivity]. intros _. split; [reflexivity | discriminate].
Qed.

(** X5. A run returns nil exactly when [WalkDir] delivers no error and, on
    every entry it visits, every name of the list is registered and its
    linter returns nil. *)
Theorem lintPackageFs_success_iff (fsys : fs.FS) (linters : list string) :
  lintPackageFs lctx fsys linters = None <->
  (forall path d err, In (path, d, Some err) (fs.visits fsys ".") -> False) /\
  (forall path d name,
     In (path, Some d, None) (fs.visits fsys ".") ->
     In name linters ->
     exists linter, Linters !! name = Some linter /\ linterFunc linter lctx path d = None).
Proof.
  rewrite lintPackageFs_None_iff, List.Forall_forall. split.
  - intros Hall. split.
    + intros path d err Hin. apply Hall, visitPasses_iff in Hin as [Herr _]. discriminate.
    + intros path d name Hin Hname. apply Hall, visitPasses_iff in Hin as [_ Hpass].
      now apply (Hpass d).
  - intros [Hnoerr Hpass] [[path d] err] Hin. apply visitPasses_iff. split.
    + destruct err as [err|]; [now apply Hnoerr in Hin | reflexivity].
    + intros de name -> Hname. destruct err as [err|]; [now apply Hnoerr in Hin |].
      exact (Hpass path de name Hin Hname).
Qed.

(** X7. With an empty list of linters a run reports traversal errors only:
    it returns nil exactly when [WalkDir] delivers no error, whatever the
    entries are, and the context plays no part. *)
Theorem lintPackageFs_no_linters (fsys : fs.FS) :
  (lintPackageFs lctx fsys [] = None <->
   forall path d err, In (path, d, Some err) (fs.visits fsys ".") -> False) /\
  (forall lctx' : LinterContext, lintPackageFs lctx' fsys [] = lintPackageFs lctx fsys []).
Proof.
  split; [|reflexivity].
  rewrite lintPackageFs_None_iff, List.Forall_forall. split.
  - intros Hall path d err Hin. apply Hall, visitPasses_iff in Hin as [Herr _]. discriminate.
  - intros Hnoerr [[path d] err] Hin. apply visitPasses_iff. split.
    + destruct err as [err|]; [now apply Hnoerr in Hin | reflexivity].
    + intros de name _ [].
Qed.

Lemma visitPasses_app (l1 l2 : list string) (v : fs.Visit) :
  visitPasses lctx (l1 ++ l2) v <-> visitPasses lctx l1 v /\ visitPasses lctx l2 v.
Proof.
  destruct v as [[path d] err]. unfold visitPasses. simpl.
  destruct err as [err|]; simpl; [split; [discriminate | now intros [H _]] |].
  destruct d as [d|]; [|tauto].
  rewrite rangeLinters_app.
  destruct (rangeLinters lctx path d l1); split; try tauto; try discriminate.
Qed.

(** X9. A run with the list [l1 ++ l2] succeeds exactly when the run with
    [l1] and the run with [l2] both succeed. *)
Theorem lintPackageFs_app_success (fsys : fs.FS) (l1 l2 : list string) :
  lintPackageFs lctx fsys (l1 ++ l2) = None <->
  lintPackageFs lctx fsys l1 = None /\ lintPackageFs lctx fsys l2 = None.
Proof.
  rewrite !lintPackageFs_None_iff, !List.Forall_forall. split.
  - intros H. split; intros v Hin; now apply (visitPasses_app l1 l2 v), H.
  - intros [H1 H2] v Hin. apply visitPasses_app. split; [now apply H1 | now apply H2].
Qed.

(** X8. Success is monotone in the list: when a run succeeds, so does the
    run with any list made of names of that list, in any order and with any
    repetition.  Asking for fewer checks never turns a success into a
    failure, and the order of the names does not decide whether a run
    succeeds. *)
Theorem lintPackageFs_incl_success (fsys : fs.FS) (l l' : list string) :
  (forall name, In name l -> In name l') ->
  lintPackageFs lctx fsys l' = None ->
  lintPackageFs lctx fsys l = None.
Proof.
  intros Hincl. rewrite !lintPackageFs_None_iff, !List.Forall_forall.
  intros Hall [[path d] err] Hin.
  apply Hall, visitPasses_iff in Hin as [Herr Hpass].
  apply visitPasses_iff. split; [exact Herr |].
  intros de name Hd Hname. apply (Hpass de name Hd). now apply Hincl.
Qed.

End Success.

(** ** Errors of a run, and lists that give the same run *)

Section Runs.

Variable lctx : LinterContext.

(** X6. A non-nil result is one of three errors, each built by the callback:
    the traversal error of a visit that carries an error, the unknown-linter
    error of a requested name that is not registered, or the failure of a
    registered linter on a visited entry, which wraps what the linter
    returned.  The error of a linter is never returned as it is. *)
Theorem lintPackageFs_error_kinds (fsys : fs.FS) (linters : list string) (e : error) :
  lintPackageFs lctx fsys linters = Some e ->
  (exists path d err,
     In (path, d, Some err) (fs.visits fsys ".") /\ e = traversalError path err) \/
  (exists name,
     In name linters /\ Linters !! name = None /\ e = unknownLinterError name) \/
  (exists name path d linter cause,
     In name linters /\ Linters !! name = Some linter /\
     In (path, Some d, None) (fs.visits fsys ".") /\
     linterFunc linter lctx path d = Some cause /\
     e = linterFailedError name path cause (Explain linter)).
Proof.
  intros Hsome.
  destruct (lintPackageFs_result_cases lctx linters fsys)
    as [[_ Hnone] | (pre & path & d & err & post & e' & Hvisits & _ & Hfail & Hres)];
    [congruence |].
  assert (e' = e) by congruence. subst e'.
  assert (Hin : In (path, d, err) (fs.visits fsys "."))
    by (rewrite Hvisits; apply in_or_app; right; now left).
  destruct err as [err|]; simpl in Hfail.
  - left. exists path, d, err. split; [exact Hin | congruence].
  - destruct d as [d|]; [|discriminate]. right.
    destruct (rangeLinters_error_cases lctx path d linters e Hfail)
      as (lpre & name & lpost & -> & _ & [[Hname ->] | (linter & cause & Hname & Hcause & ->)]).
    + left. exists name. split; [apply in_or_app; right; now left | now split].
    + right. exists name, path, d, linter, cause.
      split; [apply in_or_app; right; now left | now repeat split].
Qed.

(** Two lists on which the loop returns the same on every entry give the
    same run. *)
Lemma lintPackageFs_ext (fsys : fs.FS) (l l' : list string) :
  (forall path d, rangeLinters lctx path d l = rangeLinters lctx path d l') ->
  lintPackageFs lctx fsys l = lintPackageFs lctx fsys l'.
Proof.
  intros Hsame. unfold lintPackageFs.
  rewrite !(WalkDir_callUntilError _ (walkCb_func_never_skips lctx _)).
  induction (fs.visits fsys ".") as [|[[path d] err] vs IH]; simpl; [reflexivity |].
  assert (Hcb : walkCb lctx l path d err = walkCb lctx l' path d err).
  { destruct err as [err|]; [reflexivity |]. destruct d as [d|]; [apply Hsame | reflexivity]. }
  rewrite Hcb. now destruct (walkCb lctx l' path d err).
Qed.

(** X10. In a package whose name ends in -compat the name usrlocal has no
    effect on a run: with it or without it in the list, at any place, the
    run returns the same. *)
Theorem lintPackageFs_usrlocal_compat (fsys : fs.FS) (l1 l2 : list string) :
  HasSuffix (pkgname lctx) "-compat" = true ->
  lintPackageFs lctx fsys (l1 ++ "usrlocal" :: l2) = lintPackageFs lctx fsys (l1 ++ l2).
Proof.
  intros Hcompat. apply lintPackageFs_ext. intros path d.
  rewrite !rangeLinters_app. destruct (rangeLinters lctx path d l1); [reflexivity |].
  cbn [rangeLinters]. rewrite Linters_usrlocal. cbn [linterFunc].
  unfold usrLocalLinter. now rewrite isCompatPackage_spec, Hcompat.
Qed.

(** X11. A name that is repeated in the list has no effect where it is
    repeated: the run returns the same without the later occurrence. *)
Theorem lintPackageFs_repeated_name (fsys : fs.FS) (l1 l2 l3 : list string) (name : string) :
  lintPackageFs lctx fsys (l1 ++ name :: l2 ++ name :: l3)
  = lintPackageFs lctx fsys (l1 ++ name :: l2 ++ l3).
Proof.
  apply lintPackageFs_ext. intros path d.
  rewrite !rangeLinters_app. destruct (rangeLinters lctx path d l1); [reflexivity |].
  cbn [rangeLinters].
  destruct (Linters !! name) as [linter|] eqn:Hname; [|reflexivity].
  destruct (linterFunc linter lctx path d) as [cause|] eqn:Hcause; [reflexivity |].
  rewrite !rangeLinters_app. destruct (rangeLinters lctx path d l2); [reflexivity |].
  cbn [rangeLinters]. now rewrite Hname, Hcause.
Qed.

(** X14. A run that succeeds has called every linter of the list on every
    entry of the tree: the calls are, visit after visit in the order of the
    walk, the names of the list in their order. *)
Theorem lintPackageFs_success_calls (fsys : fs.FS) (linters : list string) :
  lintPackageFs lctx fsys linters = None ->
  lintPackageFsTraced lctx fsys linters
  = (flat_map (callsOnVisit linters) (fs.visits fsys "."), None).
Proof.
  intros Hnone. apply lintPackageFs_None_iff in Hnone.
  rewrite lintPackageFsTraced_visits.
  rewrite <- (app_nil_r (fs.visits fsys ".")) at 1.
  now rewrite (callUntilError_traced_passes lctx linters _ [] [] Hnone).
Qed.

End Runs.

(** ** What a run has checked *)

Section Checked.

Variable lctx : LinterContext.

Lemma rangeLintersTraced_calls (path : string) (d : fs.DirEntry) (linters : list string)
  (log : list Call) (c : Call) :
  In c (fst (rangeLintersTraced lctx path d linters log)) ->
  In c log \/ fst c = path.
Proof.
  revert log. induction linters as [|name linters IH]; intros log; simpl; [tauto |].
  destruct (Linters !! name) as [linter|]; [|tauto].
  assert (Hlog : In c (log ++ [(path, name)]) -> In c log \/ fst c = path).
  { intros H. apply in_app_or in H as [H|[<-|[]]]; [now left | now right]. }
  destruct (linterFunc linter lctx path d); simpl; [exact Hlog |].
  intros H. apply IH in H as [H|H]; [now apply Hlog | now right].
Qed.

(** X15. With a name in the list that is not registered, a run checks
    nothing below the root: every call of a linter it has made is on the
    root entry, and it has made none when the root could not be read. *)
Theorem lintPackageFs_unknown_checks_root_only (fsys : fs.FS) (linters : list string)
  (bad : string) :
  In bad linters ->
  Linters !! bad = None ->
  (forall c, In c (fst (lintPackageFsTraced lctx fsys linters)) -> fst c = ".") /\
  (forall e, fsys = fs.StatError e -> fst (lintPackageFsTraced lctx fsys linters) = []).
Proof.
  intros Hin Hbad.
  assert (Hstat : forall e, lintPackageFsTraced lctx (fs.StatError e) linters
                            = ([], Some (traversalError "." e))).
  { intros e.
    now rewrite (lintPackageFsTraced_stops lctx (fs.StatError e) linters [] [] "." None
                   (Some e) eq_refl (Forall_nil_2 _) (traversalError "." e) eq_refl). }
  split.
  - destruct fsys as [e|n].
    + rewrite Hstat. intros c [].
    + destruct (visits_Root n) as [rest Hvisits].
      destruct (rangeLinters_In_unknown lctx "." (fs.entry n) linters bad Hin Hbad)
        as [e He].
      rewrite (lintPackageFsTraced_stops lctx (fs.Root n) linters [] rest "."
                 (Some (fs.entry n)) None Hvisits (Forall_nil_2 _) e He).
      simpl. intros c Hc. now apply rangeLintersTraced_calls in Hc as [[]|Hc].
  - intros e ->. now rewrite Hstat.
Qed.

(** X16. What success of the default set means.  The run with setuidgid,
    tempdir, usrlocal and varempty returns nil exactly when [WalkDir]
    delivers no error and every entry has readable metadata with bits 23 and
    22 clear, a path that starts with none of tmp/, run/, var/tmp/, var/run/
    and var/empty/, and, unless the package name ends in -compat, a path
    that does not start with usr/local/. *)
Theorem lintPackageFs_default_success_iff (fsys : fs.FS) :
  lintPackageFs lctx fsys defaultLinters = None <->
  (forall path d err, In (path, d, Some err) (fs.visits fsys ".") -> False) /\
  (forall path d,
     In (path, Some d, None) (fs.visits fsys ".") ->
     (exists info, fs.Info d = inl info /\
                   Z.testbit (fs.Mode info) 23 = false /\
                   Z.testbit (fs.Mode info) 22 = false) /\
     HasPrefix path "tmp/" = false /\
     HasPrefix path "run/" = false /\
     HasPrefix path "var/tmp/" = false /\
     HasPrefix path "var/run/" = false /\
     HasPrefix path "var/empty/" = false /\
     (HasSuffix (pkgname lctx) "-compat" = true \/ HasPrefix path "usr/local/" = false)).
Proof.
  assert (Hentry : forall path d,
    rangeLinters lctx path d defaultLinters = None <->
    (exists info, fs.Info d = inl info /\
                  Z.testbit (fs.Mode info) 23 = false /\
                  Z.testbit (fs.Mode info) 22 = false) /\
    HasPrefix path "tmp/" = false /\
    HasPrefix path "run/" = false /\
    HasPrefix path "var/tmp/" = false /\
    HasPrefix path "var/run/" = false /\
    HasPrefix path "var/empty/" = false /\
    (HasSuffix (pkgname lctx) "-compat" = true \/ HasPrefix path "usr/local/" = false)).
  { intros path d. unfold defaultLinters. cbn [rangeLinters].
    rewrite Linters_setuidgid, Linters_tempdir, Linters_usrlocal, Linters_varempty.
    cbn [linterFunc]. rewrite isSetUidOrGidLinter_testbit.
    unfold tempDirLinter, usrLocalLinter, varEmptyLinter.
    rewrite isTempDirRegex_spec, isCompatPackage_spec, isUsrLocalRegex_spec,
      isVarEmptyRegex_spec.
    destruct (fs.Info d) as [info|err].
    - destruct (Z.testbit (fs.Mode info) 23) eqn:E23.
      { split; [discriminate |]. intros [(i & [= <-] & H23 & _) _]. congruence. }
      destruct (Z.testbit (fs.Mode info) 22) eqn:E22.
      { split; [discriminate |]. intros [(i & [= <-] & _ & H22) _]. congruence. }
      assert (Hinfo : exists i, @inl fs.FileInfo error info = inl i /\
                                Z.testbit (fs.Mode i) 23 = false /\
                                Z.testbit (fs.Mode i) 22 = false)
        by now exists info.
      destruct (HasPrefix path "tmp/"), (HasPrefix path "run/"), (HasPrefix path "var/tmp/"),
        (HasPrefix path "var/run/"), (HasPrefix path "var/empty/"),
        (HasSuffix (pkgname lctx) "-compat"), (HasPrefix path "usr/local/");
        simpl; split; try discriminate; intuition discriminate.
    - split; [discriminate |]. intros [(i & Hi & _) _]. discriminate. }
  rewrite lintPackageFs_None_iff, List.Forall_forall. split.
  - intros Hall. split.
    + intros path d err Hin. apply Hall in Hin. discriminate.
    + intros path d Hin. apply Hall in Hin. unfold visitPasses in Hin. simpl in Hin.
      now apply Hentry.
  - intros [Hnoerr Hpass] [[path d] err] Hin. unfold visitPasses. simpl.
    destruct err as [err|]; [now apply Hnoerr in Hin |].
    destruct d as [d|]; [|reflexivity].
    apply Hentry. now apply Hpass.
Qed.

End Checked.

(** ** The further properties on concrete packages *)

Section MoreExamples.

Lemma isSetUidOrGidLinter_bits_example :
  isSetUidOrGidLinter (pkg "bar") "sbin/mount"
    (fileEntry "mount" (Z.lor fs.ModeSetuid perm644))
  = isSetUidOrGidLinter (pkg "foo") "usr/bin/su"
      (fileEntry "su" (Z.lor fs.ModeSetuid perm755)).
Proof.
  apply (proj2 (isSetUidOrGidLinter_bits (pkg "foo") "usr/bin/su"
                  (fileEntry "su" (Z.lor fs.ModeSetuid perm755)))
           (pkg "bar") "sbin/mount" (fileEntry "mount" (Z.lor fs.ModeSetuid perm644))
           {| fs.Mode := Z.lor fs.ModeSetuid perm755 |}
           {| fs.Mode := Z.lor fs.ModeSetuid perm644 |}); reflexivity.
Defined.

Lemma path_linters_exclusive_example :
  varEmptyLinter (pkg "foo") "var/tmp/cache" (fileEntry "cache" perm644) = None /\
  usrLocalLinter (pkg "foo") "var/tmp/cache" (fileEntry "cache" perm644) = None.
Proof.
  apply (proj1 (path_linters_exclusive (pkg "foo") "var/tmp/cache"
                  (fileEntry "cache" perm644))).
  vm_compute. discriminate.
Defined.

Lemma path_linters_accept_top_level_example :
  tempDirLinter (pkg "foo") "tmp" (dirEntry "tmp" perm755) = None /\
  varEmptyLinter (pkg "foo") "tmp" (dirEntry "tmp" perm755) = None /\
  usrLocalLinter (pkg "foo") "tmp" (dirEntry "tmp" perm755) = None.
Proof.
  apply (path_linters_accept_top_level (pkg "foo") "tmp" (dirEntry "tmp" perm755)).
  reflexivity.
Defined.

Lemma lintPackageFs_error_kinds_example :
  (exists path d err,
     In (path, d, Some err) (fs.visits unreadableDir ".") /\
     traversalError "priv" (permissionDenied "open" "priv") = traversalError path err) \/
  (exists name,
     In name defaultLinters /\ Linters !! name = None /\
     traversalError "priv" (permissionDenied "open" "priv") = unknownLinterError name) \/
  (exists name path d linter cause,
     In name defaultLinters /\ Linters !! name = Some linter /\
     In (path, Some d, None) (fs.visits unreadableDir ".") /\
     linterFunc linter (pkg "foo") path d = Some cause /\
     traversalError "priv" (permissionDenied "open" "priv")
     = linterFailedError name path cause (Explain linter)).
Proof.
  apply (lintPackageFs_error_kinds (pkg "foo") unreadableDir defaultLinters
           (traversalError "priv" (permissionDenied "open" "priv"))).
  reflexivity.
Defined.

Lemma lintPackageFs_incl_success_example :
  lintPackageFs (pkg "foo") cleanTree ["varempty"; "tempdir"; "varempty"] = None.
Proof.
  apply (lintPackageFs_incl_success (pkg "foo") cleanTree
           ["varempty"; "tempdir"; "varempty"] defaultLinters).
  - intros name H. simpl in *. tauto.
  - reflexivity.
Defined.

Lemma lintPackageFs_usrlocal_compat_example :
  lintPackageFs (pkg "foo-compat") twoViolations ["setuidgid"; "usrlocal"; "varempty"]
  = lintPackageFs (pkg "foo-compat") twoViolations ["setuidgid"; "varempty"].
Proof.
  apply (lintPackageFs_usrlocal_compat (pkg "foo-compat") twoViolations
           ["setuidgid"] ["varempty"]).
  reflexivity.
Defined.

Lemma lintPackageFs_success_calls_example :
  lintPackageFsTraced (pkg "foo") cleanTree ["tempdir"; "varempty"]
  = ([(".", "tempdir"); (".", "varempty");
      ("usr", "tempdir"); ("usr", "varempty");
      ("usr/bin", "tempdir"); ("usr/bin", "varempty");
      ("usr/bin/tool", "tempdir"); ("usr/bin/tool", "varempty")], None).
Proof.
  apply (lintPackageFs_success_calls (pkg "foo") cleanTree ["tempdir"; "varempty"]).
  reflexivity.
Defined.

Lemma lintPackageFs_unknown_checks_root_only_example :
  List.Forall (fun c : Call => fst c = ".")
    (fst (lintPackageFsTraced (pkg "foo") twoViolations
            ["setuidgid"; "bogus"; "tempdir"])).
Proof.
  apply List.Forall_forall.
  apply (proj1 (lintPackageFs_unknown_checks_root_only (pkg "foo") twoViolations
                  ["setuidgid"; "bogus"; "tempdir"] "bogus"
                  (or_intror (or_introl eq_refl)) eq_refl)).
Defined.

End MoreExamples.
